(** * The ingredient retriever of the food-label scanner

    A shallow embedding of the retrieval step of
    [Brahim_AIT_LHAJ_ali/app.py]: the construction of the module-level
    table [INGREDIENT_LOOKUP], [fuzzy_match_ingredient] and
    [retrieve_knowledge], together with the parts of the Python runtime
    they rest on ([str.lower], [str.strip], the [in] operator on
    strings, insertion-ordered dictionaries, sets and
    [difflib.SequenceMatcher.ratio]).

    Conventions.
    - A Python [str] is a [string]; a character stands for the code
      point of the same number, so the model covers the strings whose
      code points are below 256.  On that range [str.lower] and
      [str.isspace] are the tables written out below.
    - A [dict] is an association list in insertion order, with at most
      one binding read per key.
    - A field of a record holds an integer, a string, or a JSON array
      or object; numbers with a fraction, booleans and [null] are left
      out.
    - A float is the rational it stands for.  [SequenceMatcher.ratio]
      is the quotient [2.0 * M / T] rounded to the nearest float, the
      even one at a tie, as the division of two floats is
      ([Difflib.float_div]); the literal [0.65] is the float nearest
      to 65/100.  Python compares floats, integers and fractions by
      their values, so a threshold is any rational.
    - The code is written twice: first as computations that pass
      records around as values, which is what most properties are
      about; then, in [Heap], over a store of objects with references,
      allocation and assignment in place, which is where what a call
      changes can be stated.  The two are proved to agree. *)

From Stdlib Require Import String Ascii List Bool Arith ZArith QArith Lia.
From Stdlib Require Import DecimalString.
Import ListNotations.
Local Close Scope Q_scope.
Local Open Scope string_scope.
Local Open Scope list_scope.
Local Open Scope nat_scope.

(** ** Python strings *)

Module PyStr.

(** [c.lower()] for one character. *)
Definition lower_char (c : ascii) : ascii :=
  let n := nat_of_ascii c in
  if ((65 <=? n) && (n <=? 90))
     || ((192 <=? n) && (n <=? 222) && negb (n =? 215))
  then ascii_of_nat (n + 32)
  else c.

(** [s.lower()]. *)
Fixpoint lower (s : string) : string :=
  match s with
  | EmptyString => EmptyString
  | String c s' => String (lower_char c) (lower s')
  end.

(** [c.isspace()]. *)
Definition isspace (c : ascii) : bool :=
  let n := nat_of_ascii c in
  (9 <=? n) && (n <=? 13) || (28 <=? n) && (n <=? 32)
  || (n =? 133) || (n =? 160).

(** [s.lstrip()]. *)
Fixpoint lstrip (s : string) : string :=
  match s with
  | EmptyString => EmptyString
  | String c s' => if isspace c then lstrip s' else s
  end.

(** [s.rstrip()]. *)
Fixpoint rstrip (s : string) : string :=
  match s with
  | EmptyString => EmptyString
  | String c s' =>
      match rstrip s' with
      | EmptyString => if isspace c then EmptyString else String c EmptyString
      | r => String c r
      end
  end.

(** [s.strip()]. *)
Definition strip (s : string) : string := rstrip (lstrip s).

(** [sub in s]. *)
Fixpoint contains (s sub : string) : bool :=
  if String.prefix sub s then true
  else match s with
       | EmptyString => false
       | String _ s' => contains s' sub
       end.

End PyStr.

(** ** [difflib.SequenceMatcher(None, a, b).ratio()]

    The matcher of CPython's [difflib], for the way the scanner calls
    it: no junk predicate ([isjunk] is [None], so [bjunk] is empty) and
    [autojunk] left at its default. *)

Module Difflib.

(** A matching block [(i, j, size)]: [a[i:i+size] == b[j:j+size]]. *)
Definition Match : Type := nat * nat * nat.

Definition at_index (s : list ascii) (i : nat) : ascii := nth i s Ascii.zero.

(** The positions of [elt] in [b], counted from [i], in increasing order. *)
Fixpoint indices_of (elt : ascii) (b : list ascii) (i : nat) : list nat :=
  match b with
  | [] => []
  | x :: b' =>
      if Ascii.eqb x elt then i :: indices_of elt b' (S i)
      else indices_of elt b' (S i)
  end.

(** [b2j.get(elt, [])] after [__chain_b]: when [b] has 200 elements or
    more, an element that occurs more than [n // 100 + 1] times is
    "popular" and has been deleted from [b2j]. *)
Definition b2j_get (b : list ascii) (elt : ascii) : list nat :=
  let idxs := indices_of elt b 0 in
  let n := List.length b in
  if (200 <=? n) && (n / 100 + 1 <? List.length idxs) then [] else idxs.

(** [j2len.get(j, 0)]. *)
Fixpoint j2len_get (j2len : list (nat * nat)) (j : nat) : nat :=
  match j2len with
  | [] => 0
  | (j', k) :: rest => if j' =? j then k else j2len_get rest j
  end.

(** The inner loop of [find_longest_match], over the positions [js] of
    [a[i]] in [b].  [j2len.get(j-1, 0)] at [j = 0] asks for the key
    [-1], which is never present. *)
Fixpoint scan_row (js : list nat) (i blo bhi : nat)
    (j2len newj2len : list (nat * nat)) (best : Match)
  : list (nat * nat) * Match :=
  match js with
  | [] => (newj2len, best)
  | j :: js' =>
      if j <? blo then scan_row js' i blo bhi j2len newj2len best
      else if bhi <=? j then (newj2len, best)
      else
        let k := match j with 0 => 0 | S j' => j2len_get j2len j' end + 1 in
        let '(_, _, bestsize) := best in
        scan_row js' i blo bhi j2len ((j, k) :: newj2len)
          (if bestsize <? k then (i + 1 - k, j + 1 - k, k) else best)
  end.

(** The outer loop [for i in range(alo, ahi)]. *)
Fixpoint scan_rows (a b : list ascii) (rows : list nat) (blo bhi : nat)
    (j2len : list (nat * nat)) (best : Match) : Match :=
  match rows with
  | [] => best
  | i :: rows' =>
      let '(newj2len, best') :=
        scan_row (b2j_get b (at_index a i)) i blo bhi j2len [] best in
      scan_rows a b rows' blo bhi newj2len best'
  end.

(** [while besti > alo and bestj > blo and a[besti-1] == b[bestj-1]]. *)
Fixpoint extend_left (a b : list ascii) (alo blo besti bestj bestsize : nat)
    {struct besti} : Match :=
  match besti, bestj with
  | S i', S j' =>
      if (alo <? besti) && (blo <? bestj)
         && Ascii.eqb (at_index a i') (at_index b j')
      then extend_left a b alo blo i' j' (S bestsize)
      else (besti, bestj, bestsize)
  | _, _ => (besti, bestj, bestsize)
  end.

(** [while besti+bestsize < ahi and bestj+bestsize < bhi and
    a[besti+bestsize] == b[bestj+bestsize]]; [room] is
    [ahi - (besti+bestsize)], so the loop has stopped when it is 0. *)
Fixpoint extend_right (a b : list ascii) (ahi bhi besti bestj bestsize : nat)
    (room : nat) : Match :=
  match room with
  | 0 => (besti, bestj, bestsize)
  | S room' =>
      if (besti + bestsize <? ahi) && (bestj + bestsize <? bhi)
         && Ascii.eqb (at_index a (besti + bestsize))
                      (at_index b (bestj + bestsize))
      then extend_right a b ahi bhi besti bestj (S bestsize) room'
      else (besti, bestj, bestsize)
  end.

(** [find_longest_match(alo, ahi, blo, bhi)].  With [bjunk] empty the
    two loops that absorb junk never run. *)
Definition find_longest_match (a b : list ascii) (alo ahi blo bhi : nat)
  : Match :=
  let '(besti, bestj, bestsize) :=
    scan_rows a b (seq alo (ahi - alo)) blo bhi [] (alo, blo, 0) in
  let '(besti, bestj, bestsize) :=
    extend_left a b alo blo besti bestj bestsize in
  extend_right a b ahi bhi besti bestj bestsize (ahi - (besti + bestsize)).

(** The [while queue:] loop of [get_matching_blocks].  [queue] holds the
    Python list with its last element first, so [queue.pop()] takes the
    head and [queue.append] conses.  [None] when [fuel] passes of the
    loop do not empty the queue. *)
Fixpoint blocks_loop (fuel : nat) (a b : list ascii)
    (queue : list (nat * nat * nat * nat)) (matching_blocks : list Match)
  : option (list Match) :=
  match queue with
  | [] => Some matching_blocks
  | (alo, ahi, blo, bhi) :: queue' =>
      match fuel with
      | 0 => None
      | S fuel' =>
          let '(i, j, k) := find_longest_match a b alo ahi blo bhi in
          if k =? 0 then blocks_loop fuel' a b queue' matching_blocks
          else
            let q1 := if (alo <? i) && (blo <? j)
                      then (alo, i, blo, j) :: queue' else queue' in
            let q2 := if (i + k <? ahi) && (j + k <? bhi)
                      then (i + k, ahi, j + k, bhi) :: q1 else q1 in
            blocks_loop fuel' a b q2 (matching_blocks ++ [(i, j, k)])
      end
  end.

(** The blocks found, before they are sorted and adjacent ones merged
    (neither changes the sum of their sizes).  Every pass of the loop
    lowers the sum of [2 * (ahi - alo) + 1] over the queue, which starts
    at [2 * len(a) + 1]: see [blocks_loop_enough_fuel]. *)
Definition get_matching_blocks (a b : list ascii) : list Match :=
  match blocks_loop (2 * List.length a + 2) a b
          [(0, List.length a, 0, List.length b)] [] with
  | Some blocks => blocks
  | None => []
  end.

Definition matches (a b : list ascii) : nat :=
  fold_left (fun acc (x : Match) => acc + snd x) (get_matching_blocks a b) 0.

(** [x / y] for two doubles that hold the integers [n >= 0] and
    [d > 0]: the double nearest to the quotient, the even mantissa at a
    tie, as the rational it stands for.  With [e] the exponent of the
    quotient, [2^e <= n/d < 2^(e+1)], the quotient is scaled by [2^s],
    [s = 52 - e], to a mantissa of 53 bits, which is rounded to an
    integer.  Integers below [2^53] are doubles, and their quotients
    are far from the ends of the exponent range. *)
Definition float_div (n d : Z) : Q :=
  if (n <=? 0)%Z then 0%Q
  else
    let e0 := (Z.log2 n - Z.log2 d)%Z in
    let e := if (0 <=? e0)%Z
             then (if (d * 2 ^ e0 <=? n)%Z then e0 else e0 - 1)%Z
             else (if (d <=? n * 2 ^ (- e0))%Z then e0 else e0 - 1)%Z in
    let s := (52 - e)%Z in
    let num := (if (0 <=? s)%Z then n * 2 ^ s else n)%Z in
    let den := (if (0 <=? s)%Z then d else d * 2 ^ (- s))%Z in
    let q := (num / den)%Z in
    let r := (num mod den)%Z in
    let m := (if (2 * r <? den)%Z then q
              else if (den <? 2 * r)%Z then q + 1
              else if Z.even q then q else q + 1)%Z in
    if (0 <=? s)%Z then Qmake m (Z.to_pos (2 ^ s))
    else inject_Z (m * 2 ^ (- s)).

(** [_calculate_ratio(matches, length)]: [2.0 * matches / length] is a
    division of doubles, and the product [2.0 * matches] is exact. *)
Definition calculate_ratio (matches length : nat) : Q :=
  match length with
  | 0 => 1%Q
  | S _ => float_div (2 * Z.of_nat matches) (Z.of_nat length)
  end.

(** [SequenceMatcher(None, a, b).ratio()]. *)
Definition ratio (a b : string) : Q :=
  let a := list_ascii_of_string a in
  let b := list_ascii_of_string b in
  calculate_ratio (matches a b) (List.length a + List.length b).

End Difflib.

(** ** Python values, exceptions and dictionaries *)

(** What a field of a [data.json] record holds: an integer, a string,
    or a JSON array or object.  Of an array or an object the code uses
    nothing but what [str()] makes of it, which is its [text]; it has
    no [lower] and no hash. *)
Inductive value : Type :=
  | PyInt (z : Z)
  | PyStr (s : string)
  | PyList (text : string)
  | PyDict (text : string).

(** [x == y], which the code asks of integers and strings only. *)
Definition value_eqb (x y : value) : bool :=
  match x, y with
  | PyInt a, PyInt b => Z.eqb a b
  | PyStr a, PyStr b => String.eqb a b
  | PyList a, PyList b => String.eqb a b
  | PyDict a, PyDict b => String.eqb a b
  | _, _ => false
  end.

(** The exceptions the modelled code can raise. *)
Inductive exn : Type :=
  | KeyError (key : string)
  | AttributeError (attr : string)
  | TypeError (message : string).

Module Dict.

(** A [dict] with string keys, as the list of its items in insertion
    order. *)
Definition dict (V : Type) : Type := list (string * V).

(** [d.get(k)]: [None] when [k not in d]. *)
Fixpoint get {V} (d : dict V) (k : string) : option V :=
  match d with
  | [] => None
  | (k', v) :: d' => if String.eqb k' k then Some v else get d' k
  end.

(** [d[k] = v]: a key already present keeps its place and takes the new
    value, a new key goes to the end. *)
Fixpoint set {V} (d : dict V) (k : string) (v : V) : dict V :=
  match d with
  | [] => [(k, v)]
  | (k', v') :: d' =>
      if String.eqb k' k then (k', v) :: d' else (k', v') :: set d' k v
  end.

(** [d[k]]. *)
Definition getitem {V} (d : dict V) (k : string) : exn + V :=
  match get d k with
  | Some v => inr v
  | None => inl (KeyError k)
  end.

(** [d.keys()]. *)
Definition keys {V} (d : dict V) : list string := map fst d.

(** [bool(d)]. *)
Definition truthy {V} (d : dict V) : bool :=
  match d with
  | [] => false
  | _ :: _ => true
  end.

End Dict.

(** One record of [data.json]: the [dict] that [json.load] makes of a
    JSON object. *)
Definition entry : Type := Dict.dict value.

(** [v.lower()]: only a [str] has the method. *)
Definition value_lower (v : value) : exn + string :=
  match v with
  | PyStr s => inr (PyStr.lower s)
  | PyInt _ | PyList _ | PyDict _ => inl (AttributeError "lower")
  end.

(** ** Loading the knowledge base (module level) *)

(** [key = entry["ingredient"].lower().strip()]. *)
Definition entry_key (e : entry) : exn + string :=
  match Dict.getitem e "ingredient" with
  | inl x => inl x
  | inr v =>
      match value_lower v with
      | inl x => inl x
      | inr s => inr (PyStr.strip s)
      end
  end.

(** [for entry in INGREDIENT_DB: ... INGREDIENT_LOOKUP[key] = entry],
    from the table built so far. *)
Fixpoint build_lookup (db : list entry) (lookup : Dict.dict entry)
  : exn + Dict.dict entry :=
  match db with
  | [] => inr lookup
  | e :: db' =>
      match entry_key e with
      | inl x => inl x
      | inr key => build_lookup db' (Dict.set lookup key e)
      end
  end.

(** The module's global variables. *)
Record globals : Type := {
  INGREDIENT_DB : list entry;
  INGREDIENT_LOOKUP : Dict.dict entry
}.

(** Lines 42 to 49: [INGREDIENT_DB = json.load(f)], then the table is
    filled from the empty [dict]; an exception aborts the import. *)
Definition load_module (data_json : list entry) : exn + globals :=
  match build_lookup data_json [] with
  | inl x => inl x
  | inr lookup =>
      inr {| INGREDIENT_DB := data_json; INGREDIENT_LOOKUP := lookup |}
  end.

(** ** Computations over the module's globals *)

(** A call takes the globals as they are, ends with a value or an
    exception, and leaves the globals as it made them. *)
Definition M (A : Type) : Type := globals -> (exn + A) * globals.

Definition ret {A} (a : A) : M A := fun g => (inr a, g).

Definition bind {A B} (m : M A) (f : A -> M B) : M B :=
  fun g =>
    match m g with
    | (inl x, g') => (inl x, g')
    | (inr a, g') => f a g'
    end.

Definition lift {A} (r : exn + A) : M A := fun g => (r, g).

(** Reading the global name [INGREDIENT_LOOKUP]. *)
Definition read_INGREDIENT_LOOKUP : M (Dict.dict entry) :=
  fun g => (inr (INGREDIENT_LOOKUP g), g).

Notation "x <- m ;; f" := (bind m (fun x => f))
  (at level 61, m at next level, right associativity).

(** ** The fuzzy matching engine *)

(** [x > y] on scores. *)
Definition Qgt_bool (x y : Q) : bool := negb (Qle_bool x y).

(** The default of [threshold]. *)
Definition default_threshold : Q := Difflib.float_div 65 100.

(** Step 2 of [fuzzy_match_ingredient]: the first item, in the order of
    [items()], whose key is in the name or holds the name. *)
Fixpoint first_containing (normalised : string) (items : Dict.dict entry)
  : option entry :=
  match items with
  | [] => None
  | (key, record) :: rest =>
      if PyStr.contains normalised key || PyStr.contains key normalised
      then Some record
      else first_containing normalised rest
  end.

(** The body of the loop of step 3 on [(best_score, best_record)]. *)
Definition best_step (normalised : string) (best : Q * option entry)
    (item : string * entry) : Q * option entry :=
  let '(key, record) := item in
  let score := Difflib.ratio normalised key in
  if Qgt_bool score (fst best) then (score, Some record) else best.

(** Step 3: the loop over all items, from [best_score = 0] and
    [best_record = None]. *)
Definition best_match (normalised : string) (items : Dict.dict entry)
  : Q * option entry :=
  fold_left (best_step normalised) items (0%Q, None).

(** [fuzzy_match_ingredient(name, threshold)]; [None] is Python's
    [None]. *)
Definition fuzzy_match_ingredient (name : string) (threshold : Q)
  : M (option entry) :=
  let normalised := PyStr.strip (PyStr.lower name) in
  lookup <- read_INGREDIENT_LOOKUP ;;
  match Dict.get lookup normalised with
  | Some record => ret (Some record)
  | None =>
      lookup <- read_INGREDIENT_LOOKUP ;;
      match first_containing normalised lookup with
      | Some record => ret (Some record)
      | None =>
          lookup <- read_INGREDIENT_LOOKUP ;;
          let '(best_score, best_record) := best_match normalised lookup in
          if Qle_bool threshold best_score then ret best_record
          else ret None
      end
  end.

(** ** Retrieval *)

(** The local variables of [retrieve_knowledge]; [seen_ids] is a set,
    kept as the list of its elements. *)
Record locals : Type := {
  matched : list entry;
  unmatched : list string;
  seen_ids : list value
}.

(** [x in seen_ids], for an [x] that has a hash. *)
Definition seen (x : value) (ids : list value) : bool :=
  existsb (value_eqb x) ids.

(** [x not in seen_ids] as Python evaluates it: the set asks for the
    hash of [x] first, and a list or a dict has none. *)
Definition not_in_set (x : value) (ids : list value) : exn + bool :=
  match x with
  | PyInt _ | PyStr _ => inr (negb (seen x ids))
  | PyList _ => inl (TypeError "unhashable type: 'list'")
  | PyDict _ => inl (TypeError "unhashable type: 'dict'")
  end.

(** The body of [for name in ingredient_names]. *)
Definition retrieve_step (l : locals) (name : string) : M locals :=
  record <- fuzzy_match_ingredient name default_threshold ;;
  match record with
  | Some r =>
      if Dict.truthy r then
        id <- lift (Dict.getitem r "id") ;;
        is_new <- lift (not_in_set id (seen_ids l)) ;;
        if is_new then
          ret {| matched := matched l ++ [r];
                 unmatched := unmatched l;
                 seen_ids := id :: seen_ids l |}
        else ret l
      else ret l
  | None =>
      ret {| matched := matched l;
             unmatched := unmatched l ++ [name];
             seen_ids := seen_ids l |}
  end.

Fixpoint retrieve_loop (l : locals) (ingredient_names : list string)
  : M locals :=
  match ingredient_names with
  | [] => ret l
  | name :: rest =>
      l' <- retrieve_step l name ;;
      retrieve_loop l' rest
  end.

(** [retrieve_knowledge(ingredient_names)]. *)
Definition retrieve_knowledge (ingredient_names : list string)
  : M (list entry * list string) :=
  l <- retrieve_loop {| matched := []; unmatched := []; seen_ids := [] |}
         ingredient_names ;;
  ret (matched l, unmatched l).

(** ** Retrieval over the objects it shares

    The computations above pass records around as values.  In the
    program a record is a [dict] object that [INGREDIENT_DB],
    [INGREDIENT_LOOKUP] and the list [matched] all refer to, and
    [retrieve_knowledge] works by changing objects in place:
    [matched.append], [unmatched.append], [seen_ids.add].  Here the
    same code is written over a store of objects, with references,
    allocation and assignment, so that what a call changes can be
    stated.  Strings and what the matcher builds and drops stay
    values. *)

Module Heap.

(** A reference to an object. *)
Definition addr : Type := nat.

(** The objects of the retrieval step.  A list or a [dict] of records
    holds references to them. *)
Inductive object : Type :=
  | Record (fields : entry)
  | Records (items : list addr)
  | Table (items : Dict.dict addr)
  | Names (items : list string)
  | Ids (elems : list value).

(** The objects, each at the position that is its reference, and the
    objects that the module's two names are bound to. *)
Record state : Type := {
  objects : list object;
  INGREDIENT_DB : addr;
  INGREDIENT_LOOKUP : addr
}.

(** A call ends with a value or an exception and a new state.  [None]
    stands for what Python cannot do: following a reference to no
    object, or to an object of another type than the one the code
    made. *)
Definition H (A : Type) : Type := state -> option ((exn + A) * state).

Definition ret {A} (a : A) : H A := fun s => Some (inr a, s).

Definition bind {A B} (m : H A) (f : A -> H B) : H B :=
  fun s =>
    match m s with
    | None => None
    | Some (inl x, s') => Some (inl x, s')
    | Some (inr a, s') => f a s'
    end.

Definition lift {A} (r : exn + A) : H A := fun s => Some (r, s).

Definition stuck {A} : H A := fun _ => None.

Notation "x <~ m ;; f" := (bind m (fun x => f))
  (at level 61, m at next level, right associativity).

(** A new object, at the end of the store. *)
Definition new (o : object) : H addr :=
  fun s =>
    Some (inr (List.length (objects s)),
          {| objects := objects s ++ [o];
             INGREDIENT_DB := INGREDIENT_DB s;
             INGREDIENT_LOOKUP := INGREDIENT_LOOKUP s |}).

(** The object behind a reference. *)
Definition load (a : addr) : H object :=
  fun s =>
    match nth_error (objects s) a with
    | Some o => Some (inr o, s)
    | None => None
    end.

Fixpoint update (objs : list object) (a : addr) (o : object)
  : list object :=
  match objs, a with
  | [], _ => []
  | _ :: rest, 0 => o :: rest
  | x :: rest, S a' => x :: update rest a' o
  end.

(** The object behind a reference changed in place. *)
Definition store (a : addr) (o : object) : H unit :=
  fun s =>
    if a <? List.length (objects s)
    then Some (inr tt,
               {| objects := update (objects s) a o;
                  INGREDIENT_DB := INGREDIENT_DB s;
                  INGREDIENT_LOOKUP := INGREDIENT_LOOKUP s |})
    else None.

(** Reading the global name [INGREDIENT_LOOKUP]. *)
Definition read_INGREDIENT_LOOKUP : H addr :=
  fun s => Some (inr (INGREDIENT_LOOKUP s), s).

Definition load_record (a : addr) : H entry :=
  o <~ load a ;;
  match o with Record fields => ret fields | _ => stuck end.

Definition load_records (a : addr) : H (list addr) :=
  o <~ load a ;;
  match o with Records items => ret items | _ => stuck end.

Definition load_table (a : addr) : H (Dict.dict addr) :=
  o <~ load a ;;
  match o with Table items => ret items | _ => stuck end.

Definition load_names (a : addr) : H (list string) :=
  o <~ load a ;;
  match o with Names items => ret items | _ => stuck end.

Definition load_ids (a : addr) : H (list value) :=
  o <~ load a ;;
  match o with Ids elems => ret elems | _ => stuck end.

(** [l.append(record)] on a list of records. *)
Definition append_record (l : addr) (record : addr) : H unit :=
  items <~ load_records l ;;
  store l (Records (items ++ [record])).

(** [l.append(name)] on a list of strings. *)
Definition append_name (l : addr) (name : string) : H unit :=
  items <~ load_names l ;;
  store l (Names (items ++ [name])).

(** [x not in ids] on a set. *)
Definition set_lacks (ids : addr) (x : value) : H bool :=
  elems <~ load_ids ids ;;
  lift (not_in_set x elems).

(** [ids.add(x)] on a set. *)
Definition set_add (ids : addr) (x : value) : H unit :=
  elems <~ load_ids ids ;;
  is_new <~ lift (not_in_set x elems) ;;
  if is_new then store ids (Ids (x :: elems)) else ret tt.

(** Step 2 of [fuzzy_match_ingredient], over references. *)
Fixpoint first_containing (normalised : string) (items : Dict.dict addr)
  : option addr :=
  match items with
  | [] => None
  | (key, record) :: rest =>
      if PyStr.contains normalised key || PyStr.contains key normalised
      then Some record
      else first_containing normalised rest
  end.

(** The body of the loop of step 3, over references. *)
Definition best_step (normalised : string) (best : Q * option addr)
    (item : string * addr) : Q * option addr :=
  let '(key, record) := item in
  let score := Difflib.ratio normalised key in
  if Qgt_bool score (fst best) then (score, Some record) else best.

Definition best_match (normalised : string) (items : Dict.dict addr)
  : Q * option addr :=
  fold_left (best_step normalised) items (0%Q, None).

(** [fuzzy_match_ingredient(name, threshold)]: the reference it returns
    is the one the table holds. *)
Definition fuzzy_match_ingredient (name : string) (threshold : Q)
  : H (option addr) :=
  let normalised := PyStr.strip (PyStr.lower name) in
  lookup <~ read_INGREDIENT_LOOKUP ;;
  items <~ load_table lookup ;;
  match Dict.get items normalised with
  | Some record => ret (Some record)
  | None =>
      lookup <~ read_INGREDIENT_LOOKUP ;;
      items <~ load_table lookup ;;
      match first_containing normalised items with
      | Some record => ret (Some record)
      | None =>
          lookup <~ read_INGREDIENT_LOOKUP ;;
          items <~ load_table lookup ;;
          let '(best_score, best_record) := best_match normalised items in
          if Qle_bool threshold best_score then ret best_record
          else ret None
      end
  end.

(** The body of [for name in ingredient_names], on the three objects
    that the local names are bound to. *)
Definition retrieve_step (matched unmatched seen_ids : addr)
    (name : string) : H unit :=
  record <~ fuzzy_match_ingredient name default_threshold ;;
  match record with
  | Some r =>
      fields <~ load_record r ;;
      if Dict.truthy fields then
        id <~ lift (Dict.getitem fields "id") ;;
        is_new <~ set_lacks seen_ids id ;;
        if is_new then
          _ <~ append_record matched r ;;
          fields <~ load_record r ;;
          id <~ lift (Dict.getitem fields "id") ;;
          set_add seen_ids id
        else ret tt
      else ret tt
  | None => append_name unmatched name
  end.

Fixpoint retrieve_loop (matched unmatched seen_ids : addr)
    (ingredient_names : list string) : H unit :=
  match ingredient_names with
  | [] => ret tt
  | name :: rest =>
      _ <~ retrieve_step matched unmatched seen_ids name ;;
      retrieve_loop matched unmatched seen_ids rest
  end.

(** [retrieve_knowledge(ingredient_names)]: the references to the two
    lists it made. *)
Definition retrieve_knowledge (ingredient_names : list string)
  : H (addr * addr) :=
  matched <~ new (Records []) ;;
  unmatched <~ new (Names []) ;;
  seen_ids <~ new (Ids []) ;;
  _ <~ retrieve_loop matched unmatched seen_ids ingredient_names ;;
  ret (matched, unmatched).

(** The loading loop, with the records at the references [0], [1], ...:
    [INGREDIENT_LOOKUP[key] = entry] files the reference. *)
Fixpoint build_lookup (db : list (addr * entry)) (lookup : Dict.dict addr)
  : exn + Dict.dict addr :=
  match db with
  | [] => inr lookup
  | (a, e) :: db' =>
      match entry_key e with
      | inl x => inl x
      | inr key => build_lookup db' (Dict.set lookup key a)
      end
  end.

(** The state after the module is loaded: the records that [json.load]
    made, the list of them and the table, which share the records. *)
Definition load_module (data_json : list entry) : exn + state :=
  let refs := seq 0 (List.length data_json) in
  match build_lookup (combine refs data_json) [] with
  | inl x => inl x
  | inr lookup =>
      inr {| objects := map Record data_json ++ [Records refs; Table lookup];
             INGREDIENT_DB := List.length data_json;
             INGREDIENT_LOOKUP := S (List.length data_json) |}
  end.

(** *** Reading a state *)

(** The reference is to a record. *)
Definition is_record (s : state) (a : addr) : bool :=
  match nth_error (objects s) a with
  | Some (Record _) => true
  | _ => false
  end.

(** The two names are bound to a list and a table of records. *)
Definition well_formed (s : state) : bool :=
  match nth_error (objects s) (INGREDIENT_DB s),
        nth_error (objects s) (INGREDIENT_LOOKUP s) with
  | Some (Records db), Some (Table items) =>
      forallb (is_record s) db
      && forallb (fun item : string * addr => is_record s (snd item)) items
  | _, _ => false
  end.

(** The fields of the record behind a reference. *)
Definition fields_at (s : state) (a : addr) : entry :=
  match nth_error (objects s) a with
  | Some (Record fields) => fields
  | _ => []
  end.

(** A table of references as the table of the records behind them. *)
Definition deref_items (s : state) (items : Dict.dict addr)
  : Dict.dict entry :=
  map (fun item : string * addr => (fst item, fields_at s (snd item))) items.

(** The globals as the computations on values see them. *)
Definition view (s : state) : globals :=
  Build_globals
    match nth_error (objects s) (INGREDIENT_DB s) with
    | Some (Records db) => map (fields_at s) db
    | _ => []
    end
    match nth_error (objects s) (INGREDIENT_LOOKUP s) with
    | Some (Table items) => deref_items s items
    | _ => []
    end.

(** What the caller of [retrieve_knowledge] reads in the two lists it
    was handed, or the exception it got. *)
Definition returned (s : state) (outcome : exn + addr * addr)
  : exn + list entry * list string :=
  match outcome with
  | inl x => inl x
  | inr (matched, unmatched) =>
      inr (match nth_error (objects s) matched with
           | Some (Records items) => map (fields_at s) items
           | _ => []
           end,
           match nth_error (objects s) unmatched with
           | Some (Names items) => items
           | _ => []
           end)
  end.

(** The state [s] with the three objects of a call in progress after
    it. *)
Definition with_locals (s : state) (matched : list addr)
    (unmatched : list string) (seen_ids : list value) : state :=
  {| objects := objects s ++ [Records matched; Names unmatched; Ids seen_ids];
     INGREDIENT_DB := INGREDIENT_DB s;
     INGREDIENT_LOOKUP := INGREDIENT_LOOKUP s |}.

End Heap.

(** ** Bounds for the matcher *)

(** The block lies in [a[alo:hi]]. *)
Definition within (alo hi : nat) (m : Difflib.Match) : Prop :=
  let '(i, _, k) := m in alo <= i /\ i + k <= hi.

(** What is left to do for a queue of [get_matching_blocks]. *)
Fixpoint queue_weight (queue : list (nat * nat * nat * nat)) : nat :=
  match queue with
  | [] => 0
  | (alo, ahi, _, _) :: queue' => 2 * (ahi - alo) + 1 + queue_weight queue'
  end.

(** ** The order of the table *)

(** The keys of a [dict] after one more assignment: a key met for the
    first time goes to the end. *)
Definition add_key (keys : list string) (k : string) : list string :=
  if in_dec string_dec k keys then keys else keys ++ [k].

(** ** Well-formed records *)

(** The record has a name that is a string (possibly the empty one). *)
Definition has_name (e : entry) : bool :=
  match Dict.get e "ingredient" with
  | Some (PyStr _) => true
  | _ => false
  end.

(** The record has an [id] that a set can hold: an integer or a
    string. *)
Definition has_id (e : entry) : bool :=
  match Dict.get e "id" with
  | Some (PyInt _) | Some (PyStr _) => true
  | _ => false
  end.

(** Every record of the table has such an [id]. *)
Definition records_have_id (g : globals) : bool :=
  forallb (fun item : string * entry => has_id (snd item))
          (INGREDIENT_LOOKUP g).

(** What [fuzzy_match_ingredient(name)] returns on the globals [g]. *)
Definition match_of (g : globals) (name : string) : option entry :=
  match fst (fuzzy_match_ingredient name default_threshold g) with
  | inr record => record
  | inl _ => None
  end.

(** ** The outputs of retrieval, said directly *)

(** [record.get("id")]. *)
Definition id_of (record : entry) : option value := Dict.get record "id".

Definition same_id (r r' : entry) : bool :=
  match id_of r, id_of r' with
  | Some i, Some i' => value_eqb i i'
  | None, None => true
  | _, _ => false
  end.

(** A list of records without those that share their id with an earlier
    record of the list. *)
Fixpoint first_by_id (records : list entry) : list entry :=
  match records with
  | [] => []
  | r :: rest =>
      r :: filter (fun r' => negb (same_id r r')) (first_by_id rest)
  end.

(** The records that the names match, name after name. *)
Definition hits (g : globals) (names : list string) : list entry :=
  flat_map (fun name => match match_of g name with
                        | Some r => [r]
                        | None => []
                        end) names.

(** The name matches nothing. *)
Definition no_match (g : globals) (name : string) : bool :=
  match match_of g name with
  | Some _ => false
  | None => true
  end.

(** The record's id is not among [ids]. *)
Definition unseen (ids : list value) (r : entry) : bool :=
  match id_of r with
  | Some i => negb (seen i ids)
  | None => true
  end.

(** ** A small knowledge base *)

Definition sample_record (id : Z) (name : string) : entry :=
  [("id", PyInt id); ("ingredient", PyStr name);
   ("category", PyStr "additive"); ("effect_summary", PyStr "");
   ("health_effect", PyStr "")].

(** Two of the names normalise to ["salt"], and ["acid"] comes before
    ["citric acid"]. *)
Definition sample_data : list entry :=
  [sample_record 1 "Sugar"; sample_record 2 "Salt"; sample_record 3 "Acid";
   sample_record 4 "Citric Acid"; sample_record 5 " SALT "].

Definition sample_globals : globals :=
  {| INGREDIENT_DB := sample_data;
     INGREDIENT_LOOKUP :=
       [("sugar", sample_record 1 "Sugar");
        ("salt", sample_record 5 " SALT ");
        ("acid", sample_record 3 "Acid");
        ("citric acid", sample_record 4 "Citric Acid")] |}.

(** The two records of the scenario of the specification. *)
Definition sugar_salt : globals :=
  {| INGREDIENT_DB := [sample_record 1 "Sugar"; sample_record 2 "Salt"];
     INGREDIENT_LOOKUP := [("sugar", sample_record 1 "Sugar");
                           ("salt", sample_record 2 "Salt")] |}.


(** A table with a record that has no id. *)
Definition idless_globals : globals :=
  {| INGREDIENT_DB := [[("ingredient", PyStr "Sugar")]];
     INGREDIENT_LOOKUP := [("sugar", [("ingredient", PyStr "Sugar")])] |}.

(** The state that loading the sample leaves: the five records, the
    list of them and the table. *)
Definition sample_heap : Heap.state :=
  {| Heap.objects :=
       map Heap.Record sample_data
       ++ [Heap.Records [0; 1; 2; 3; 4];
           Heap.Table [("sugar", 0); ("salt", 4); ("acid", 2);
                       ("citric acid", 3)]];
     Heap.INGREDIENT_DB := 5;
     Heap.INGREDIENT_LOOKUP := 6 |}.

(** ** Sizes for the matcher *)

(** The block lies in [b[blo:hi]]. *)
Definition within_b (blo hi : nat) (m : Difflib.Match) : Prop :=
  let '(_, j, k) := m in blo <= j /\ j + k <= hi.

(** The sum of the sizes of the blocks. *)
Fixpoint sizes (blocks : list Difflib.Match) : nat :=
  match blocks with
  | [] => 0
  | (_, _, k) :: rest => k + sizes rest
  end.

(** The windows of [a] still in the queue, added up. *)
Fixpoint queue_room_a (queue : list (nat * nat * nat * nat)) : nat :=
  match queue with
  | [] => 0
  | (alo, ahi, _, _) :: queue' => (ahi - alo) + queue_room_a queue'
  end.

(** The windows of [b] still in the queue, added up. *)
Fixpoint queue_room_b (queue : list (nat * nat * nat * nat)) : nat :=
  match queue with
  | [] => 0
  | (_, _, blo, bhi) :: queue' => (bhi - blo) + queue_room_b queue'
  end.

(** A window of the queue is not turned over. *)
Definition window_ok (w : nat * nat * nat * nat) : Prop :=
  let '(alo, ahi, blo, bhi) := w in alo <= ahi /\ blo <= bhi.

(** ** The check on the name of an uploaded file *)

(** [ALLOWED_EXTENSIONS], a set, as the list of its elements. *)
Definition ALLOWED_EXTENSIONS : list string := ["png"; "jpg"; "jpeg"; "webp"].

(** [s.rsplit(".", 1)]: the text before the last dot and the text after
    it, or [s] alone when it has no dot. *)
Fixpoint rsplit_dot (s : string) : list string :=
  match s with
  | EmptyString => [EmptyString]
  | String c s' =>
      match rsplit_dot s' with
      | [head; tail] => [String c head; tail]
      | _ => if Ascii.eqb c "." then [EmptyString; s'] else [String c s']
      end
  end.

(** [_allowed_file(filename)].  Python's [and] reads [rsplit(...)[1]]
    only when the name has a dot; the list then has two elements (see
    [rsplit_dot_spec]), so the [IndexError] of a missing element cannot
    be raised and the last case below is never taken. *)
Definition _allowed_file (filename : string) : bool :=
  PyStr.contains filename "."
  && match nth_error (rsplit_dot filename) 1 with
     | Some extension =>
         existsb (String.eqb (PyStr.lower extension)) ALLOWED_EXTENSIONS
     | None => false
     end.

(** ** The prompt of the second pass *)

(** The line feed and the double quote of the string literals. *)
Definition nl : string := String (ascii_of_nat 10) EmptyString.
Definition dq : string := String (ascii_of_nat 34) EmptyString.

(** [str(v)], which is how an f-string writes a field. *)
Definition str_of_value (v : value) : string :=
  match v with
  | PyStr s => s
  | PyInt z => NilZero.string_of_int (Z.to_int z)
  | PyList text | PyDict text => text
  end.

(** [', '.join(names)]. *)
Definition join_comma (names : list string) : string :=
  String.concat ", " names.

(** [bool(l)] for a list. *)
Definition nonempty {A} (l : list A) : bool :=
  match l with
  | [] => false
  | _ :: _ => true
  end.

(** The text of [prompt] before the list of ingredients. *)
Definition PROMPT_OPENING : string :=
  ("You are a food safety expert. Analyze the following ingredients found on "
   ++ "a food product label." ++ nl ++ nl
   ++ "## INGREDIENTS FROM LABEL:" ++ nl)%string.

(** The text of [prompt] after the two blocks.  Its dash, U+2014, is
    beyond the characters of the model and stands here as the three
    bytes of its UTF-8 form; nothing below depends on it. *)
Definition PROMPT_INSTRUCTIONS : string :=
  ("Using the INGREDIENT KNOWLEDGE BASE above as your PRIMARY source of truth, "
   ++ "and your general knowledge for any ingredients not in the database, "
   ++ "provide a health analysis." ++ nl ++ nl
   ++ "Return ONLY raw JSON (no markdown fences). Use this exact structure:" ++ nl
   ++ "{" ++ nl
   ++ "  " ++ dq ++ "score" ++ dq ++ ": <integer 0-10, 10 = healthiest>," ++ nl
   ++ "  " ++ dq ++ "verdict" ++ dq ++ ": " ++ dq ++ "<Healthy, Moderate Risk, or Unhealthy>" ++ dq ++ "," ++ nl
   ++ "  " ++ dq ++ "report" ++ dq ++ ": " ++ dq ++ "<5-7 line paragraph explaining the overall health impact, "
   ++ "mentioning key good and bad ingredients with their effects>" ++ dq ++ "," ++ nl
   ++ "  " ++ dq ++ "ingredients_detail" ++ dq ++ ": [" ++ nl
   ++ "    {" ++ nl
   ++ "      " ++ dq ++ "name" ++ dq ++ ": " ++ dq ++ "<ingredient name>" ++ dq ++ "," ++ nl
   ++ "      " ++ dq ++ "category" ++ dq ++ ": " ++ dq ++ "<category>" ++ dq ++ "," ++ nl
   ++ "      " ++ dq ++ "effect" ++ dq ++ ": " ++ dq ++ "<brief effect summary>" ++ dq ++ "," ++ nl
   ++ "      " ++ dq ++ "risk_level" ++ dq ++ ": " ++ dq ++ "<good, moderate, or bad>" ++ dq ++ nl
   ++ "    }" ++ nl
   ++ "  ]" ++ nl
   ++ "}" ++ nl ++ nl
   ++ "IMPORTANT:" ++ nl
   ++ "- The 'ingredients_detail' array should cover EVERY ingredient from the label" ++ nl
   ++ "- Use the knowledge base data when available — do not contradict it" ++ nl
   ++ "- For ingredients NOT in the database, use your general knowledge" ++ nl
   ++ "- Be honest and science-based in your assessment" ++ nl)%string.

(** The fields that a line of the knowledge block reads, in the order in
    which the f-string reads them. *)
Definition KNOWLEDGE_FIELDS : list string :=
  ["ingredient"; "category"; "effect_summary"; "health_effect"].

(** The f-string added to [knowledge_block] for one [item]. *)
Definition knowledge_line (item : entry) : exn + string :=
  match Dict.getitem item "ingredient" with
  | inl x => inl x
  | inr ingredient =>
  match Dict.getitem item "category" with
  | inl x => inl x
  | inr category =>
  match Dict.getitem item "effect_summary" with
  | inl x => inl x
  | inr effect_summary =>
  match Dict.getitem item "health_effect" with
  | inl x => inl x
  | inr health_effect =>
      inr ("- **" ++ str_of_value ingredient
           ++ "** | Category: " ++ str_of_value category
           ++ " | Effect: " ++ str_of_value effect_summary
           ++ " | Detail: " ++ str_of_value health_effect ++ nl)%string
  end end end end.

(** [for item in matched_knowledge: knowledge_block += ...]. *)
Fixpoint knowledge_lines (items : list entry) (knowledge_block : string)
  : exn + string :=
  match items with
  | [] => inr knowledge_block
  | item :: rest =>
      match knowledge_line item with
      | inl x => inl x
      | inr line => knowledge_lines rest (knowledge_block ++ line)%string
      end
  end.

(** [build_analysis_prompt(ingredients_from_label, matched_knowledge,
    unmatched_names)]. *)
Definition build_analysis_prompt (ingredients_from_label : list string)
    (matched_knowledge : list entry) (unmatched_names : list string)
  : exn + string :=
  match (if nonempty matched_knowledge then
           match knowledge_lines matched_knowledge
                   ("## INGREDIENT KNOWLEDGE BASE (verified data):" ++ nl)%string
           with
           | inl x => inl x
           | inr knowledge_block => inr (knowledge_block ++ nl)%string
           end
         else inr EmptyString) with
  | inl x => inl x
  | inr knowledge_block =>
      let unmatched_block :=
        if nonempty unmatched_names then
          ("## INGREDIENTS NOT IN DATABASE (use your general knowledge):" ++ nl
           ++ join_comma unmatched_names ++ nl ++ nl)%string
        else EmptyString in
      inr (PROMPT_OPENING ++ join_comma ingredients_from_label ++ nl ++ nl
           ++ knowledge_block ++ unmatched_block
           ++ PROMPT_INSTRUCTIONS)%string
  end.

(** ** The bag of words of the intent classifier ([nltk_utils.py]) *)

Section BagOfWords.

(** [stemmer.stem], the Porter stemmer of NLTK, which the repository
    takes as it is. *)
Variable stemmer_stem : string -> string.

(** [stem(word)]. *)
Definition stem (word : string) : string := stemmer_stem (PyStr.lower word).

(** [bag[idx] = x], for an index of the array. *)
Fixpoint setitem (bag : list Q) (idx : nat) (x : Q) : list Q :=
  match bag, idx with
  | [], _ => []
  | _ :: rest, 0 => x :: rest
  | y :: rest, S idx' => y :: setitem rest idx' x
  end.

(** [for idx, w in enumerate(words): if w in sentence_words:
    bag[idx] = 1], from the index [idx] on. *)
Fixpoint bag_loop (sentence_words words : list string) (idx : nat)
    (bag : list Q) : list Q :=
  match words with
  | [] => bag
  | w :: rest =>
      bag_loop sentence_words rest (S idx)
        (if existsb (String.eqb w) sentence_words
         then setitem bag idx 1%Q else bag)
  end.

(** [bag_of_words(tokenized_sentence, words)]; the entries of the
    [float32] array are 0 and 1 only. *)
Definition bag_of_words (tokenized_sentence words : list string) : list Q :=
  let sentence_words := map stem tokenized_sentence in
  bag_loop sentence_words words 0 (repeat 0%Q (List.length words)).

End BagOfWords.

(** * Properties *)

(** ** Strings *)

Lemma prefix_iff (sub s : string) :
  String.prefix sub s = true <-> exists post, s = (sub ++ post)%string.
Proof.
  revert s; induction sub as [|c sub IH]; intros s; simpl.
  - split; [intros _; exists s; reflexivity | intros _; destruct s; reflexivity].
  - destruct s as [|d s]; simpl.
    + split; [discriminate | intros [post H]; discriminate].
    + destruct (ascii_dec c d) as [->|Hcd].
      * rewrite IH. split; intros [post H]; exists post.
        -- now rewrite H.
        -- now inversion H.
      * split; [discriminate | intros [post H]; inversion H; congruence].
Qed.

Lemma contains_unfold (s sub : string) :
  PyStr.contains s sub
  = if String.prefix sub s then true
    else match s with
         | EmptyString => false
         | String _ s' => PyStr.contains s' sub
         end.
Proof. destruct s; reflexivity. Qed.

(** [contains s sub] is Python's [sub in s]: [sub] occurs in [s] as a
    contiguous run. *)
Lemma contains_iff (s sub : string) :
  PyStr.contains s sub = true
  <-> exists pre post, s = (pre ++ sub ++ post)%string.
Proof.
  induction s as [|c s IH]; rewrite contains_unfold.
  - destruct (String.prefix sub "") eqn:Hp.
    + split; [intros _ | reflexivity].
      apply prefix_iff in Hp. destruct Hp as [post Hp].
      exists "", post. exact Hp.
    + split; [discriminate|].
      intros [pre [post H]].
      destruct pre; simpl in H; [|discriminate].
      assert (String.prefix sub "" = true) by (apply prefix_iff; now exists post).
      congruence.
  - destruct (String.prefix sub (String c s)) eqn:Hp.
    + split; [intros _ | reflexivity].
      apply prefix_iff in Hp. destruct Hp as [post Hp].
      exists "", post. exact Hp.
    + rewrite IH. split.
      * intros [pre [post H]]. exists (String c pre), post. simpl. now rewrite H.
      * intros [pre [post H]]. destruct pre as [|d pre]; simpl in H.
        -- assert (String.prefix sub (String c s) = true)
             by (apply prefix_iff; now exists post).
           congruence.
        -- inversion H. now exists pre, post.
Qed.

(** The empty string is in every string. *)
Lemma contains_empty (s : string) : PyStr.contains s "" = true.
Proof. destruct s; reflexivity. Qed.

(** ** Dictionaries *)

Lemma get_set_same {V} (d : Dict.dict V) k v :
  Dict.get (Dict.set d k v) k = Some v.
Proof.
  induction d as [|[k' v'] d IH]; simpl.
  - now rewrite String.eqb_refl.
  - destruct (String.eqb k' k) eqn:E; simpl; rewrite E; auto.
Qed.

Lemma get_set_other {V} (d : Dict.dict V) k v k' :
  k <> k' -> Dict.get (Dict.set d k v) k' = Dict.get d k'.
Proof.
  intros Hne. induction d as [|[k0 v0] d IH]; simpl.
  - destruct (String.eqb k k') eqn:E; [apply String.eqb_eq in E; contradiction | reflexivity].
  - destruct (String.eqb k0 k) eqn:E; simpl.
    + apply String.eqb_eq in E; subst k0.
      destruct (String.eqb k k') eqn:E'; [apply String.eqb_eq in E'; contradiction | reflexivity].
    + now rewrite IH.
Qed.

Lemma get_In {V} (d : Dict.dict V) k v :
  Dict.get d k = Some v -> In (k, v) d.
Proof.
  induction d as [|[k' v'] d IH]; simpl; [discriminate|].
  destruct (String.eqb k' k) eqn:E.
  - apply String.eqb_eq in E; subst. intros H; inversion H; now left.
  - intros H; right; auto.
Qed.

Lemma get_None_iff {V} (d : Dict.dict V) k :
  Dict.get d k = None <-> ~ In k (Dict.keys d).
Proof.
  induction d as [|[k' v'] d IH]; simpl.
  - tauto.
  - destruct (String.eqb k' k) eqn:E.
    + apply String.eqb_eq in E; subst. split; [discriminate | intros H; exfalso; auto].
    + apply String.eqb_neq in E. rewrite IH. tauto.
Qed.

Lemma In_keys_get {V} (d : Dict.dict V) k :
  In k (Dict.keys d) -> exists v, Dict.get d k = Some v.
Proof.
  intros Hin. destruct (Dict.get d k) as [v|] eqn:E; [now exists v|].
  apply get_None_iff in E. contradiction.
Qed.

(** In a dictionary, whose keys are distinct, an item is what [get]
    reads. *)
Lemma In_get {V} (d : Dict.dict V) k v :
  NoDup (Dict.keys d) -> In (k, v) d -> Dict.get d k = Some v.
Proof.
  induction d as [|[k' v'] d IH]; simpl; [tauto|].
  intros Hnd [H|H].
  - inversion H; subst. now rewrite String.eqb_refl.
  - inversion Hnd as [|? ? Hnotin Hnd']; subst.
    destruct (String.eqb k' k) eqn:E.
    + apply String.eqb_eq in E; subst. exfalso; apply Hnotin.
      change k with (fst (k, v)). now apply in_map.
    + auto.
Qed.

Lemma keys_set {V} (d : Dict.dict V) k v :
  Dict.keys (Dict.set d k v)
  = if in_dec string_dec k (Dict.keys d) then Dict.keys d
    else Dict.keys d ++ [k].
Proof.
  induction d as [|[k' v'] d IH]; simpl; [reflexivity|].
  destruct (String.eqb k' k) eqn:E; simpl.
  - apply String.eqb_eq in E; subst.
    destruct (string_dec k k); [|contradiction].
    reflexivity.
  - apply String.eqb_neq in E. rewrite IH.
    destruct (string_dec k' k); [contradiction|].
    destruct (in_dec string_dec k (Dict.keys d)); reflexivity.
Qed.

Lemma NoDup_keys_set {V} (d : Dict.dict V) k v :
  NoDup (Dict.keys d) -> NoDup (Dict.keys (Dict.set d k v)).
Proof.
  intros Hnd. rewrite keys_set.
  destruct (in_dec string_dec k (Dict.keys d)) as [|Hn]; [assumption|].
  apply NoDup_rev in Hnd.
  rewrite <- (rev_involutive (Dict.keys d ++ [k])).
  apply NoDup_rev. rewrite rev_app_distr. simpl.
  constructor; [|assumption].
  now rewrite <- in_rev.
Qed.

(** ** Loading *)

Lemma entry_key_has_name (e : entry) :
  has_name e = true -> exists key, entry_key e = inr key.
Proof.
  unfold has_name, entry_key, Dict.getitem.
  destruct (Dict.get e "ingredient") as [[z|s|t|t]|]; try discriminate.
  intros _. simpl. eauto.
Qed.


Lemma build_lookup_total (db : list entry) :
  forallb has_name db = true ->
  forall lookup, exists table, build_lookup db lookup = inr table.
Proof.
  induction db as [|e db IH]; simpl; intros Hall lookup.
  - now exists lookup.
  - apply andb_prop in Hall. destruct Hall as [He Hdb].
    destruct (entry_key_has_name e He) as [key ->]. now apply IH.
Qed.


Lemma build_lookup_NoDup (db : list entry) :
  forall lookup table,
    build_lookup db lookup = inr table ->
    NoDup (Dict.keys lookup) -> NoDup (Dict.keys table).
Proof.
  induction db as [|e db IH]; simpl; intros lookup table H Hnd.
  - now inversion H; subst.
  - destruct (entry_key e) as [x|key]; [discriminate|].
    eapply IH; [exact H|]. now apply NoDup_keys_set.
Qed.

(** The keys of the table stand in the order in which the loading loop
    first met them. *)
Lemma build_lookup_keys (db : list entry) :
  forall lookup table,
    build_lookup db lookup = inr table ->
    exists ks,
      map entry_key db = map inr ks
      /\ Dict.keys table = fold_left add_key ks (Dict.keys lookup).
Proof.
  induction db as [|e db IH]; simpl; intros lookup table H.
  - inversion H; subst. now exists [].
  - destruct (entry_key e) as [x|key]; [discriminate|].
    destruct (IH _ _ H) as (ks & Hks & Hkeys).
    exists (key :: ks). simpl. split; [now rewrite Hks|].
    rewrite Hkeys, keys_set. reflexivity.
Qed.

(** Records filed under other keys leave the binding of [key] alone. *)
Lemma build_lookup_other_keys (db : list entry) key :
  (forall e, In e db -> entry_key e <> inr key) ->
  forall lookup table,
    build_lookup db lookup = inr table ->
    Dict.get table key = Dict.get lookup key.
Proof.
  induction db as [|e db IH]; simpl; intros Hne lookup table H.
  - now inversion H.
  - destruct (entry_key e) as [x|k] eqn:Ek; [discriminate|].
    rewrite (IH (fun e' He' => Hne e' (or_intror He')) _ _ H).
    apply get_set_other. intros ->. now apply (Hne e (or_introl eq_refl)).
Qed.

Lemma build_lookup_last (before after : list entry) e key :
  entry_key e = inr key ->
  (forall e', In e' after -> entry_key e' <> inr key) ->
  forall lookup table,
    build_lookup (before ++ e :: after) lookup = inr table ->
    Dict.get table key = Some e.
Proof.
  intros Ek Hafter.
  induction before as [|e0 before IH]; simpl; intros lookup table H.
  - rewrite Ek in H.
    rewrite (build_lookup_other_keys after key Hafter _ _ H).
    apply get_set_same.
  - destruct (entry_key e0) as [x|k0]; [discriminate|]. eapply IH, H.
Qed.

Lemma In_set {V} (d : Dict.dict V) k v k' v' :
  In (k', v') (Dict.set d k v) -> In (k', v') d \/ (k', v') = (k, v).
Proof.
  induction d as [|[k0 v0] d IH]; simpl.
  - intros [H|[]]; auto.
  - destruct (String.eqb k0 k) eqn:E; simpl.
    + apply String.eqb_eq in E; subst. intros [H|H]; auto.
    + intros [H|H]; auto. destruct (IH H); auto.
Qed.

Lemma In_keys_set {V} (d : Dict.dict V) k v k' :
  In k' (Dict.keys (Dict.set d k v)) <-> In k' (Dict.keys d) \/ k' = k.
Proof.
  rewrite keys_set. destruct (in_dec string_dec k (Dict.keys d)) as [Hin|Hn].
  - split; [now left | intros [H| ->]; assumption].
  - rewrite in_app_iff. simpl. split.
    + intros [H|[<-|[]]]; auto.
    + intros [H| ->]; auto.
Qed.

(** The keys of the table are the keys it started with and the
    normalised names of the records. *)
Lemma build_lookup_In_keys (db : list entry) :
  forall lookup table,
    build_lookup db lookup = inr table ->
    forall k, In k (Dict.keys table)
              <-> In k (Dict.keys lookup)
                  \/ exists e, In e db /\ entry_key e = inr k.
Proof.
  induction db as [|e db IH]; simpl; intros lookup table H k.
  - inversion H; subst. split; [now left | intros [H'|(e & [] & _)]; exact H'].
  - destruct (entry_key e) as [x|key] eqn:Ek; [discriminate|].
    rewrite (IH _ _ H k), In_keys_set. split.
    + intros [[Hl | ->] | (e' & He' & Hk)].
      * now left.
      * right. exists e. split; [now left | exact Ek].
      * right. exists e'. split; [now right | exact Hk].
    + intros [Hl | (e' & [<- | He'] & Hk)].
      * left. now left.
      * left. right. congruence.
      * right. now exists e'.
Qed.

(** Every item of the table is a record of the data under its own key. *)
Lemma build_lookup_items (db : list entry) :
  forall lookup table,
    build_lookup db lookup = inr table ->
    forall key record, In (key, record) table ->
      In (key, record) lookup \/ (In record db /\ entry_key record = inr key).
Proof.
  induction db as [|e db IH]; simpl; intros lookup table H key record Hin.
  - inversion H; subst; auto.
  - destruct (entry_key e) as [x|k] eqn:Ek; [discriminate|].
    destruct (IH _ _ H _ _ Hin) as [Hl|[Hd Hk]].
    + destruct (In_set _ _ _ _ _ Hl) as [Hl'|Heq]; auto.
      inversion Heq; subst. right; auto.
    + right; auto.
Qed.

(** C6. The table built from the records of [data.json] has each key
    once, bound to one record, which is a record of the data filed under
    its own normalised name; and when several records normalise to the
    same key, the key is bound to the last of them. *)
Theorem lookup_last_write_wins (data : list entry) :
  forallb has_name data = true ->
  exists g,
    load_module data = inr g
    /\ NoDup (Dict.keys (INGREDIENT_LOOKUP g))
    /\ (forall key record,
          In (key, record) (INGREDIENT_LOOKUP g)
          <-> Dict.get (INGREDIENT_LOOKUP g) key = Some record)
    /\ (forall key record,
          In (key, record) (INGREDIENT_LOOKUP g) ->
          In record data /\ entry_key record = inr key)
    /\ (forall before e after key,
          data = before ++ e :: after ->
          entry_key e = inr key ->
          (forall e', In e' after -> entry_key e' <> inr key) ->
          Dict.get (INGREDIENT_LOOKUP g) key = Some e).
Proof.
  intros Hall. unfold load_module.
  destruct (build_lookup_total data Hall []) as [table Ht].
  rewrite Ht. eexists; split; [reflexivity|]. simpl.
  assert (Hnd : NoDup (Dict.keys table)).
  { eapply build_lookup_NoDup; [exact Ht | constructor]. }
  split; [exact Hnd|]. split; [|split].
  - intros key record. split; [now apply In_get | apply get_In].
  - intros key record Hin.
    destruct (build_lookup_items _ _ _ Ht _ _ Hin) as [[]|H]; exact H.
  - intros before e after key -> Ek Hafter.
    eapply build_lookup_last; eauto.
Qed.

(** ** Matching one name *)

Lemma Qgt_bool_iff (x y : Q) : Qgt_bool x y = true <-> (y < x)%Q.
Proof.
  unfold Qgt_bool. rewrite negb_true_iff. split.
  - intros H. apply Qnot_le_lt. intros Hle.
    apply Qle_bool_iff in Hle. congruence.
  - intros H. destruct (Qle_bool x y) eqn:E; [|reflexivity].
    apply Qle_bool_iff in E. exfalso. now apply (Qlt_not_le y x).
Qed.

Lemma Qgt_bool_false (x y : Q) : Qgt_bool x y = false -> (x <= y)%Q.
Proof.
  unfold Qgt_bool. rewrite negb_false_iff. apply Qle_bool_iff.
Qed.

(** Lays a call of [fuzzy_match_ingredient] open, down to its three
    steps. *)
Ltac run_match :=
  unfold fuzzy_match_ingredient, bind, read_INGREDIENT_LOOKUP, ret.

(** The quotient of two doubles is not negative when they are not. *)
Lemma float_div_nonneg (n d : Z) :
  (0 < d)%Z -> (0 <= Difflib.float_div n d)%Q.
Proof.
  intros Hd. unfold Difflib.float_div.
  destruct (n <=? 0)%Z eqn:En; [apply Qle_refl|]. apply Z.leb_gt in En.
  set (e := if (0 <=? Z.log2 n - Z.log2 d)%Z then _ else _).
  set (s := (52 - e)%Z).
  set (num := (if (0 <=? s)%Z then n * 2 ^ s else n)%Z).
  set (den := (if (0 <=? s)%Z then d else d * 2 ^ (- s))%Z).
  assert (Hnum : (0 <= num)%Z).
  { unfold num. destruct (0 <=? s)%Z eqn:Es; [|lia].
    apply Z.leb_le in Es. pose proof (Z.pow_pos_nonneg 2 s). lia. }
  assert (Hden : (0 < den)%Z).
  { unfold den. destruct (0 <=? s)%Z eqn:Es; [exact Hd|].
    apply Z.leb_gt in Es. pose proof (Z.pow_pos_nonneg 2 (- s)). lia. }
  pose proof (Z.div_pos num den Hnum Hden) as Hq.
  set (m := (if (2 * (num mod den) <? den)%Z then _ else _)).
  assert (Hm : (0 <= m)%Z).
  { unfold m. destruct (_ <? _)%Z; [exact Hq|].
    destruct (_ <? _)%Z; [lia|]. destruct (Z.even _); lia. }
  destruct (0 <=? s)%Z eqn:Es.
  - unfold Qle. cbn [Qnum Qden]. lia.
  - apply Z.leb_gt in Es. pose proof (Z.pow_pos_nonneg 2 (- s)).
    unfold Qle, inject_Z. cbn [Qnum Qden]. nia.
Qed.

(** The quotient of two doubles is at most 1 when the first is at most
    the second. *)
Lemma float_div_le_1 (n d : Z) :
  (0 < d)%Z -> (n <= d)%Z -> (Difflib.float_div n d <= 1)%Q.
Proof.
  intros Hd Hle. unfold Difflib.float_div.
  destruct (n <=? 0)%Z eqn:En; [discriminate|]. apply Z.leb_gt in En.
  pose proof (Z.log2_le_mono n d Hle) as Hlog.
  set (e := if (0 <=? Z.log2 n - Z.log2 d)%Z then _ else _).
  assert (He : (e <= 0)%Z).
  { unfold e. destruct (0 <=? _)%Z eqn:E0.
    - apply Z.leb_le in E0. destruct (_ <=? _)%Z; lia.
    - apply Z.leb_gt in E0. destruct (_ <=? _)%Z; lia. }
  set (s := (52 - e)%Z).
  assert (Es : (0 <=? s)%Z = true) by (apply Z.leb_le; unfold s; lia).
  rewrite Es. apply Z.leb_le in Es.
  set (P := (2 ^ s)%Z). assert (HP : (0 < P)%Z) by (apply Z.pow_pos_nonneg; lia).
  pose proof (Z.div_mod (n * P) d ltac:(lia)) as Hdm.
  pose proof (Z.mod_pos_bound (n * P) d Hd) as Hr.
  set (q := (n * P / d)%Z) in *. set (r := ((n * P) mod d)%Z) in *.
  assert (Hq : (q <= P)%Z) by (apply Z.div_le_upper_bound; [exact Hd | nia]).
  set (m := (if (2 * r <? d)%Z then _ else _)).
  assert (Hm : (m <= P)%Z).
  { unfold m. destruct (2 * r <? d)%Z eqn:E1; [exact Hq|].
    apply Z.ltb_ge in E1.
    assert (q <> P) by nia.
    destruct (_ <? _)%Z; [lia|]. destruct (Z.even q); lia. }
  unfold Qle. cbn [Qnum Qden]. rewrite Z.mul_1_r, Z.mul_1_l.
  rewrite Z2Pos.id by exact HP. exact Hm.
Qed.

(** A score is never negative. *)
Lemma ratio_nonneg (a b : string) : (0 <= Difflib.ratio a b)%Q.
Proof.
  unfold Difflib.ratio, Difflib.calculate_ratio.
  destruct (_ + _) as [|n]; [discriminate|].
  apply float_div_nonneg. lia.
Qed.

(** [fuzzy_match_ingredient] raises nothing and leaves the globals as
    they were. *)
Lemma fuzzy_match_run (name : string) (threshold : Q) (g : globals) :
  exists result, fuzzy_match_ingredient name threshold g = (inr result, g).
Proof.
  run_match.
  destruct (Dict.get _ _); [eauto|].
  destruct (first_containing _ _); [eauto|].
  destruct (best_match _ _) as [best_score best_record].
  destruct (Qle_bool _ _); eauto.
Qed.

Lemma match_of_run (name : string) (g : globals) :
  fuzzy_match_ingredient name default_threshold g = (inr (match_of g name), g).
Proof.
  unfold match_of.
  destruct (fuzzy_match_run name default_threshold g) as [r ->]. reflexivity.
Qed.

Lemma first_containing_item normalised items record :
  first_containing normalised items = Some record ->
  exists key, In (key, record) items.
Proof.
  induction items as [|[k r] items IH]; simpl; [discriminate|].
  destruct (_ || _).
  - intros H; inversion H; subst. exists k; now left.
  - intros H. destruct (IH H) as [key Hk]. exists key; now right.
Qed.

Lemma first_containing_app normalised before key record after :
  (forall k r, In (k, r) before ->
     PyStr.contains normalised k = false
     /\ PyStr.contains k normalised = false) ->
  PyStr.contains normalised key || PyStr.contains key normalised = true ->
  first_containing normalised (before ++ (key, record) :: after)
  = Some record.
Proof.
  intros Hbefore Hkey.
  induction before as [|[k r] before IH]; simpl.
  - now rewrite Hkey.
  - destruct (Hbefore k r (or_introl eq_refl)) as [-> ->]. simpl.
    apply IH. intros k' r' Hin. apply (Hbefore k' r'). now right.
Qed.

(** The scan of step 3 from any [(best_score, best_record)]: either
    nothing beats the start, or the result is the first item that
    reaches the highest score. *)
Lemma best_scan normalised items :
  forall best,
    let res := fold_left (best_step normalised) items best in
    (res = best
     /\ forall k r, In (k, r) items ->
          (Difflib.ratio normalised k <= fst best)%Q)
    \/ (exists before key record after,
          items = before ++ (key, record) :: after
          /\ res = (Difflib.ratio normalised key, Some record)
          /\ (fst best < Difflib.ratio normalised key)%Q
          /\ (forall k r, In (k, r) before ->
                (Difflib.ratio normalised k < Difflib.ratio normalised key)%Q)
          /\ (forall k r, In (k, r) after ->
                (Difflib.ratio normalised k <= Difflib.ratio normalised key)%Q)).
Proof.
  induction items as [|[k0 r0] items IH]; intros best; simpl.
  - left. split; [reflexivity | intros k r []].
  - destruct (Qgt_bool (Difflib.ratio normalised k0) (fst best)) eqn:E.
    + apply Qgt_bool_iff in E.
      destruct (IH (Difflib.ratio normalised k0, Some r0))
        as [[Hres Hle] | (before & key & record & after & Hit & Hres & Hlt & Hb & Ha)].
      * right. exists [], k0, r0, items. simpl. repeat split; auto.
        intros k r [].
      * right. exists ((k0, r0) :: before), key, record, after.
        simpl in Hlt. subst items. repeat split; auto.
        -- eapply Qlt_trans; eauto.
        -- intros k r [H|H]; [inversion H; subst; exact Hlt | eauto].
    + apply Qgt_bool_false in E.
      destruct (IH best)
        as [[Hres Hle] | (before & key & record & after & Hit & Hres & Hlt & Hb & Ha)].
      * left. split; [exact Hres|].
        intros k r [H|H]; [inversion H; subst; exact E | eauto].
      * right. exists ((k0, r0) :: before), key, record, after.
        subst items. repeat split; auto.
        intros k r [H|H]; [inversion H; subst | eauto].
        eapply Qle_lt_trans; eauto.
Qed.

Lemma best_match_item normalised items score record :
  best_match normalised items = (score, Some record) ->
  exists key, In (key, record) items.
Proof.
  unfold best_match. intros H.
  destruct (best_scan normalised items (0%Q, None))
    as [[Hres _] | (before & key & r & after & Hit & Hres & _)];
    cbv zeta in Hres; rewrite H in Hres.
  - discriminate.
  - inversion Hres; subst. exists key. apply in_or_app. right. now left.
Qed.

(** What [fuzzy_match_ingredient] returns is a record of the table. *)
Lemma fuzzy_match_item name threshold g g' record :
  fuzzy_match_ingredient name threshold g = (inr (Some record), g') ->
  exists key, In (key, record) (INGREDIENT_LOOKUP g).
Proof.
  run_match.
  destruct (Dict.get _ _) as [r|] eqn:E1.
  - intros H; inversion H; subst. eexists; eapply get_In; eauto.
  - destruct (first_containing _ _) as [r|] eqn:E2.
    + intros H; inversion H; subst. eapply first_containing_item; eauto.
    + destruct (best_match _ _) as [best_score best_record] eqn:E3.
      destruct (Qle_bool _ _); intros H; inversion H; subst.
      eapply best_match_item; eauto.
Qed.

(** Two ways of cutting one list at an item: at the same place, or each
    item lies before the other cut. *)
Lemma cut_twice {A} (b1 a1 b2 a2 : list A) (x1 x2 : A) :
  b1 ++ x1 :: a1 = b2 ++ x2 :: a2 ->
  (b1 = b2 /\ x1 = x2 /\ a1 = a2) \/ In x1 b2 \/ In x2 b1.
Proof.
  revert b2. induction b1 as [|y b1 IH]; intros [|z b2]; simpl; intros H.
  - inversion H; auto.
  - inversion H; subst. right; left; now left.
  - inversion H; subst. right; right; now left.
  - inversion H; subst.
    destruct (IH _ H2) as [(-> & -> & ->) | [Hi | Hi]]; auto.
Qed.

(** C1. A name whose normalised form is a key of the table gets the
    record stored under that key, at once: nothing is asked of the
    other keys, whatever steps 2 and 3 would have made of them. *)
Theorem exact_match_first (name : string) (threshold : Q) (g : globals) :
  In (PyStr.strip (PyStr.lower name)) (Dict.keys (INGREDIENT_LOOKUP g)) ->
  exists record,
    Dict.get (INGREDIENT_LOOKUP g) (PyStr.strip (PyStr.lower name))
    = Some record
    /\ fuzzy_match_ingredient name threshold g = (inr (Some record), g).
Proof.
  intros Hkey. destruct (In_keys_get _ _ Hkey) as [record Hget].
  exists record. split; [exact Hget|].
  run_match.
  now rewrite Hget.
Qed.

(** C2. Without an exact match, the items are tried in the order of the
    table, and the first key that is in the normalised name, or that
    the normalised name is in, gives the record: keys further down the
    table are not looked at, however well they would fit. *)
Theorem containment_first_in_order (name : string) (threshold : Q)
    (g : globals) (normalised : string)
    (before after : Dict.dict entry) (key : string) (record : entry) :
  normalised = PyStr.strip (PyStr.lower name) ->
  Dict.get (INGREDIENT_LOOKUP g) normalised = None ->
  INGREDIENT_LOOKUP g = before ++ (key, record) :: after ->
  (forall k r, In (k, r) before ->
     PyStr.contains normalised k = false
     /\ PyStr.contains k normalised = false) ->
  PyStr.contains normalised key = true
  \/ PyStr.contains key normalised = true ->
  fuzzy_match_ingredient name threshold g = (inr (Some record), g).
Proof.
  intros -> Hexact Hitems Hbefore Hkey.
  run_match.
  rewrite Hexact, Hitems.
  rewrite (first_containing_app _ before key record after Hbefore).
  - reflexivity.
  - apply orb_true_iff. exact Hkey.
Qed.

(** The first item with the highest score, when that score is above 0,
    is what the scan of step 3 ends with. *)
Lemma best_match_first_max normalised items before key record after :
  items = before ++ (key, record) :: after ->
  (forall k r, In (k, r) before ->
     (Difflib.ratio normalised k < Difflib.ratio normalised key)%Q) ->
  (forall k r, In (k, r) after ->
     (Difflib.ratio normalised k <= Difflib.ratio normalised key)%Q) ->
  (0 < Difflib.ratio normalised key)%Q ->
  best_match normalised items = (Difflib.ratio normalised key, Some record).
Proof.
  intros Hitems Hb Ha Hpos. unfold best_match.
  assert (Hall : forall k r, In (k, r) items ->
            (Difflib.ratio normalised k <= Difflib.ratio normalised key)%Q).
  { intros k r Hin. rewrite Hitems in Hin.
    apply in_app_or in Hin. destruct Hin as [Hin|[Heq|Hin]].
    - apply Qlt_le_weak; eauto.
    - inversion Heq; subst. apply Qle_refl.
    - eauto. }
  destruct (best_scan normalised items (0%Q, None))
    as [[Hres Hle] | (before' & key' & record' & after' & Hit & Hres & Hlt & Hb' & Ha')];
    cbv zeta in Hres.
  - exfalso. apply (Qlt_not_le _ _ Hpos). apply (Hle key record).
    rewrite Hitems. apply in_or_app. right. now left.
  - rewrite Hres. rewrite Hitems in Hit.
    destruct (cut_twice _ _ _ _ _ _ Hit) as [(_ & Heq & _) | [Hin | Hin]].
    + now inversion Heq.
    + exfalso. apply (Qlt_not_le _ _ (Hb' _ _ Hin)).
      apply (Hall key' record'). rewrite Hitems, Hit.
      apply in_or_app. right. now left.
    + exfalso. apply (Qlt_not_le _ _ (Hb _ _ Hin)).
      assert (Hmine : In (key, record) (before' ++ (key', record') :: after')).
      { rewrite <- Hit. apply in_or_app. right. now left. }
      apply in_app_or in Hmine. destruct Hmine as [H|[H|H]].
      * apply Qlt_le_weak; eauto.
      * inversion H; subst. apply Qle_refl.
      * eauto.
Qed.

(** One pass of the loop of [retrieve_knowledge], by what the name
    matches. *)
Lemma retrieve_step_run (l : locals) (name : string) (g : globals) :
  retrieve_step l name g
  = match match_of g name with
    | Some r =>
        if Dict.truthy r then
          match Dict.getitem r "id" with
          | inl x => (inl x, g)
          | inr id =>
              match not_in_set id (seen_ids l) with
              | inl x => (inl x, g)
              | inr true =>
                  (inr {| matched := matched l ++ [r];
                          unmatched := unmatched l;
                          seen_ids := id :: seen_ids l |}, g)
              | inr false => (inr l, g)
              end
          end
        else (inr l, g)
    | None =>
        (inr {| matched := matched l;
                unmatched := unmatched l ++ [name];
                seen_ids := seen_ids l |}, g)
    end.
Proof.
  unfold retrieve_step, bind. rewrite match_of_run.
  destruct (match_of g name) as [r|]; [|reflexivity].
  destruct (Dict.truthy r); [|reflexivity].
  unfold lift, ret. destruct (Dict.getitem r "id") as [x|id]; [reflexivity|].
  destruct (not_in_set id (seen_ids l)) as [x|[|]]; reflexivity.
Qed.

(** C3, as the code has it. When steps 1 and 2 give nothing, every key
    is scored against the normalised name; the first key with the
    highest score gives the record when that score is above 0 and at
    least [threshold]; when every key scores below [threshold] or scores
    0 the answer is [None], and [retrieve_knowledge] then files the name
    as it was given under [unmatched]. *)
Theorem similarity_match (name : string) (threshold : Q) (g : globals)
    (normalised : string) :
  normalised = PyStr.strip (PyStr.lower name) ->
  Dict.get (INGREDIENT_LOOKUP g) normalised = None ->
  first_containing normalised (INGREDIENT_LOOKUP g) = None ->
  (forall before key record after,
     INGREDIENT_LOOKUP g = before ++ (key, record) :: after ->
     (forall k r, In (k, r) before ->
        (Difflib.ratio normalised k < Difflib.ratio normalised key)%Q) ->
     (forall k r, In (k, r) after ->
        (Difflib.ratio normalised k <= Difflib.ratio normalised key)%Q) ->
     (0 < Difflib.ratio normalised key)%Q ->
     (threshold <= Difflib.ratio normalised key)%Q ->
     fuzzy_match_ingredient name threshold g = (inr (Some record), g))
  /\ ((forall k r, In (k, r) (INGREDIENT_LOOKUP g) ->
         (Difflib.ratio normalised k < threshold)%Q
         \/ (Difflib.ratio normalised k <= 0)%Q) ->
      fuzzy_match_ingredient name threshold g = (inr None, g))
  /\ (match_of g name = None ->
      forall l,
        retrieve_step l name g
        = (inr {| matched := matched l;
                  unmatched := unmatched l ++ [name];
                  seen_ids := seen_ids l |}, g)).
Proof.
  intros -> Hexact Hcontain. split; [|split].
  - intros before key record after Hitems Hb Ha Hpos Hth.
    run_match.
    rewrite Hexact, Hcontain.
    rewrite (best_match_first_max _ _ before key record after Hitems Hb Ha Hpos).
    apply Qle_bool_iff in Hth. now rewrite Hth.
  - intros Hlow.
    run_match.
    rewrite Hexact, Hcontain. unfold best_match.
    destruct (best_scan (PyStr.strip (PyStr.lower name))
                (INGREDIENT_LOOKUP g) (0%Q, None))
      as [[Hres _] | (before & key & record & after & Hit & Hres & Hlt & _)];
      cbv zeta in Hres; rewrite Hres.
    + destruct (Qle_bool threshold 0); reflexivity.
    + simpl in Hlt.
      destruct (Qle_bool threshold _) eqn:E; [|reflexivity].
      apply Qle_bool_iff in E. exfalso.
      destruct (Hlow key record) as [H|H].
      * rewrite Hit. apply in_or_app. right. now left.
      * now apply (Qlt_not_le _ _ H).
      * now apply (Qlt_not_le _ _ Hlt).
  - intros Hnone l. rewrite retrieve_step_run, Hnone. reflexivity.
Qed.

(** ** Retrieval *)

Lemma value_eqb_eq (x y : value) : value_eqb x y = true <-> x = y.
Proof.
  destruct x as [a|a|a|a], y as [b|b|b|b]; simpl;
    try (split; [discriminate | intros H; inversion H]).
  - rewrite Z.eqb_eq. split; [now intros -> | now intros H; inversion H].
  - rewrite String.eqb_eq. split; [now intros -> | now intros H; inversion H].
  - rewrite String.eqb_eq. split; [now intros -> | now intros H; inversion H].
  - rewrite String.eqb_eq. split; [now intros -> | now intros H; inversion H].
Qed.

Lemma same_id_iff (r r' : entry) : same_id r r' = true <-> id_of r = id_of r'.
Proof.
  unfold same_id. destruct (id_of r) as [i|], (id_of r') as [i'|];
    try (split; [discriminate | intros H; inversion H]); [|tauto].
  rewrite value_eqb_eq. split; [now intros -> | now intros H; inversion H].
Qed.

Lemma filter_both {A} (p q : A -> bool) (l : list A) :
  filter p (filter q l) = filter (fun x => q x && p x) l.
Proof.
  induction l as [|x l IH]; simpl; [reflexivity|].
  destruct (q x); simpl; [destruct (p x)|]; now rewrite IH.
Qed.

(** Filtering by an id already seen does nothing more. *)
Lemma unseen_after_seen ids r i (records : list entry) :
  id_of r = Some i -> seen i ids = true ->
  filter (unseen ids) (filter (fun r' => negb (same_id r r')) records)
  = filter (unseen ids) records.
Proof.
  intros Hid Hseen. rewrite filter_both. apply filter_ext. intros r'.
  destruct (same_id r r') eqn:E; simpl; [|reflexivity].
  apply same_id_iff in E. unfold unseen. rewrite <- E, Hid, Hseen. reflexivity.
Qed.

(** Adding an id to the seen ones filters its records out. *)
Lemma unseen_cons ids r i (records : list entry) :
  id_of r = Some i ->
  filter (unseen (i :: ids)) records
  = filter (unseen ids) (filter (fun r' => negb (same_id r r')) records).
Proof.
  intros Hid. rewrite filter_both. apply filter_ext. intros r'.
  unfold unseen, same_id. rewrite Hid.
  destruct (id_of r') as [j|]; simpl; [|reflexivity].
  rewrite negb_orb. f_equal. f_equal.
  destruct (value_eqb j i) eqn:E1, (value_eqb i j) eqn:E2; try reflexivity.
  - apply value_eqb_eq in E1. subst.
    assert (value_eqb i i = true) by now apply value_eqb_eq. congruence.
  - apply value_eqb_eq in E2. subst.
    assert (value_eqb j j = true) by now apply value_eqb_eq. congruence.
Qed.

Lemma first_by_id_incl (records : list entry) r :
  In r (first_by_id records) -> In r records.
Proof.
  induction records as [|r0 rest IH]; simpl; [tauto|].
  intros [H|H]; [now left|]. apply filter_In in H. right. tauto.
Qed.

(** Every id of the list is the id of a record that is kept. *)
Lemma first_by_id_covers (records : list entry) r :
  In r records -> In (id_of r) (map id_of (first_by_id records)).
Proof.
  induction records as [|r0 rest IH]; simpl; [tauto|].
  intros [->|H]; [now left|].
  apply IH in H. apply in_map_iff in H. destruct H as (r' & Hid & Hin).
  destruct (same_id r0 r') eqn:E.
  - left. apply same_id_iff in E. congruence.
  - right. apply in_map_iff. exists r'. split; [exact Hid|].
    apply filter_In. split; [exact Hin | now rewrite E].
Qed.

(** Taking records out of a list keeps its ids distinct. *)
Lemma NoDup_ids_filter (keep : entry -> bool) (records : list entry) :
  NoDup (map id_of records) -> NoDup (map id_of (filter keep records)).
Proof.
  induction records as [|r records IH]; simpl; intros H; [constructor|].
  inversion H as [|? ? Hnotin Hnd]; subst.
  destruct (keep r); simpl; [constructor|]; auto.
  intros Hin. apply Hnotin. apply in_map_iff in Hin.
  destruct Hin as (r' & Hid & Hin). apply filter_In in Hin.
  apply in_map_iff. exists r'. tauto.
Qed.

(** No two of the records kept share an id. *)
Lemma first_by_id_NoDup (records : list entry) :
  NoDup (map id_of (first_by_id records)).
Proof.
  induction records as [|r rest IH]; simpl; constructor.
  - intros Hin. apply in_map_iff in Hin. destruct Hin as (r' & Hid & Hin).
    apply filter_In in Hin. destruct Hin as [_ Hne].
    assert (same_id r r' = true) by (apply same_id_iff; congruence).
    rewrite H in Hne. discriminate.
  - now apply NoDup_ids_filter.
Qed.

(** A record the table gives has an id when every record of the table
    has one; it is then a non-empty [dict], and its id has a hash. *)
Lemma match_of_has_id (g : globals) (name : string) (r : entry) :
  records_have_id g = true ->
  match_of g name = Some r ->
  exists i, id_of r = Some i /\ Dict.getitem r "id" = inr i
            /\ Dict.truthy r = true
            /\ forall ids, not_in_set i ids = inr (negb (seen i ids)).
Proof.
  intros Hwf Hm.
  pose proof (match_of_run name g) as Hrun. rewrite Hm in Hrun.
  destruct (fuzzy_match_item _ _ _ _ _ Hrun) as [key Hin].
  unfold records_have_id in Hwf. rewrite forallb_forall in Hwf.
  specialize (Hwf _ Hin). simpl in Hwf. unfold has_id in Hwf.
  unfold id_of, Dict.getitem.
  destruct (Dict.get r "id") as [i|] eqn:E; [|discriminate].
  exists i. split; [reflexivity|]. split; [reflexivity|]. split.
  - destruct r; [discriminate | reflexivity].
  - intros ids. destruct i; try discriminate; reflexivity.
Qed.

(** The loop leaves the globals as they were, whatever it ends with. *)
Lemma retrieve_loop_globals (names : list string) (g : globals) :
  forall l, snd (retrieve_loop l names g) = g.
Proof.
  induction names as [|name names IH]; intros l; simpl; [reflexivity|].
  unfold bind. rewrite retrieve_step_run.
  destruct (match_of g name) as [r|]; [|apply IH].
  destruct (Dict.truthy r); [|apply IH].
  destruct (Dict.getitem r "id") as [x|id]; [reflexivity|].
  destruct (not_in_set id (seen_ids l)) as [x|[|]];
    [reflexivity | apply IH | apply IH].
Qed.

(** When the loop ends without an exception, [unmatched] has grown by
    the names that match nothing, as given and in their order. *)
Lemma retrieve_loop_unmatched (names : list string) (g : globals) :
  forall l l' g',
    retrieve_loop l names g = (inr l', g') ->
    unmatched l' = unmatched l ++ filter (no_match g) names.
Proof.
  induction names as [|name names IH]; intros l l' g'; simpl.
  - unfold ret. intros H; inversion H; subst. now rewrite app_nil_r.
  - unfold bind, no_match. rewrite retrieve_step_run.
    destruct (match_of g name) as [r|].
    + destruct (Dict.truthy r); [|apply IH].
      destruct (Dict.getitem r "id") as [x|id]; [discriminate|].
      destruct (not_in_set id (seen_ids l)) as [x|[|]];
        [discriminate | | ]; intros H; apply IH in H; exact H.
    + intros H. apply IH in H. simpl in H. now rewrite <- app_assoc in H.
Qed.

Lemma hits_cons (g : globals) name names :
  hits g (name :: names)
  = match match_of g name with
    | Some r => r :: hits g names
    | None => hits g names
    end.
Proof. unfold hits. simpl. now destruct (match_of g name). Qed.

(** With an id on every record of the table the loop ends without an
    exception, and [matched] has grown by the first record of each id
    not seen before. *)
Lemma retrieve_loop_run (names : list string) (g : globals) :
  records_have_id g = true ->
  forall l, exists l',
    retrieve_loop l names g = (inr l', g)
    /\ matched l'
       = matched l ++ filter (unseen (seen_ids l)) (first_by_id (hits g names)).
Proof.
  intros Hwf. induction names as [|name names IH]; intros l.
  - exists l. simpl. unfold ret. now rewrite app_nil_r.
  - rewrite hits_cons. cbn [retrieve_loop]. unfold bind.
    rewrite retrieve_step_run.
    destruct (match_of g name) as [r|] eqn:Hm.
    + destruct (match_of_has_id g name r Hwf Hm) as (i & Hid & -> & -> & Hhash).
      rewrite Hhash.
      cbn [first_by_id filter]. unfold unseen at 1. rewrite Hid.
      destruct (seen i (seen_ids l)) eqn:Hseen; cbn [negb].
      * destruct (IH l) as (l' & Hrun & Hmatched). exists l'.
        split; [exact Hrun|]. rewrite Hmatched.
        now rewrite (unseen_after_seen _ r i _ Hid Hseen).
      * destruct (IH {| matched := matched l ++ [r];
                        unmatched := unmatched l;
                        seen_ids := i :: seen_ids l |})
          as (l' & Hrun & Hmatched).
        exists l'. split; [exact Hrun|]. rewrite Hmatched. cbn [matched seen_ids].
        rewrite <- app_assoc. cbn [app].
        now rewrite (unseen_cons _ r i _ Hid).
    + apply (IH {| matched := matched l;
                   unmatched := unmatched l ++ [name];
                   seen_ids := seen_ids l |}).
Qed.

(** [retrieve_knowledge] on a table whose records all have an id. *)
Lemma retrieve_knowledge_run (names : list string) (g : globals) :
  records_have_id g = true ->
  retrieve_knowledge names g
  = (inr (first_by_id (hits g names), filter (no_match g) names), g).
Proof.
  intros Hwf. unfold retrieve_knowledge, bind.
  destruct (retrieve_loop_run names g Hwf
              {| matched := []; unmatched := []; seen_ids := [] |})
    as (l' & Hrun & Hmatched).
  rewrite Hrun. unfold ret.
  rewrite (retrieve_loop_unmatched _ _ _ _ _ Hrun), Hmatched. simpl.
  assert (Hall : forall records, filter (unseen []) records = records).
  { induction records as [|r records IHr]; simpl; [reflexivity|].
    unfold unseen at 1. destruct (id_of r); simpl; now rewrite IHr. }
  now rewrite Hall.
Qed.

(** C4. On a table whose records all have an id, [matched] is the list
    of the records hit, name after name, without those whose id an
    earlier hit had: each id is there once, with the record of the first
    name that hit it.  A name that hits an id seen before changes
    neither [matched] nor [unmatched]. *)
Theorem matched_deduplicated_by_id (names : list string) (g : globals) :
  records_have_id g = true ->
  exists matched_records unmatched_names,
    retrieve_knowledge names g = (inr (matched_records, unmatched_names), g)
    /\ matched_records = first_by_id (hits g names)
    /\ NoDup (map id_of matched_records)
    /\ (forall name r, In name names -> match_of g name = Some r ->
          In (id_of r) (map id_of matched_records)
          /\ ~ In name unmatched_names)
    /\ (forall l name r i,
          match_of g name = Some r -> id_of r = Some i ->
          retrieve_step l name g
          = if seen i (seen_ids l) then (inr l, g)
            else (inr {| matched := matched l ++ [r];
                         unmatched := unmatched l;
                         seen_ids := i :: seen_ids l |}, g)).
Proof.
  intros Hwf. exists (first_by_id (hits g names)), (filter (no_match g) names).
  split; [now apply retrieve_knowledge_run|].
  split; [reflexivity|]. split; [apply first_by_id_NoDup|]. split.
  - intros name r Hin Hm. split.
    + apply first_by_id_covers. unfold hits. apply in_flat_map.
      exists name. rewrite Hm. split; [exact Hin | now left].
    + intros Hu. apply filter_In in Hu. destruct Hu as [_ Hu].
      unfold no_match in Hu. rewrite Hm in Hu. discriminate.
  - intros l name r i Hm Hid. rewrite retrieve_step_run, Hm.
    destruct (match_of_has_id g name r Hwf Hm)
      as (i' & Hid' & -> & -> & Hhash).
    assert (i' = i) by congruence. subst i'. rewrite Hhash.
    now destruct (seen i (seen_ids l)).
Qed.

(** C7. On a table whose records all have an id, [unmatched] is the
    list of names with the names that match a record taken out: the
    names that match nothing are all there, as they were given and in
    the order in which they were given. *)
Theorem unmatched_verbatim_in_order (names : list string) (g : globals) :
  records_have_id g = true ->
  exists matched_records unmatched_names,
    retrieve_knowledge names g = (inr (matched_records, unmatched_names), g)
    /\ unmatched_names = filter (no_match g) names
    /\ (forall name, In name names -> match_of g name = None ->
          In name unmatched_names).
Proof.
  intros Hwf. exists (first_by_id (hits g names)), (filter (no_match g) names).
  split; [now apply retrieve_knowledge_run|]. split; [reflexivity|].
  intros name Hin Hm. apply filter_In. split; [exact Hin|].
  unfold no_match. now rewrite Hm.
Qed.

(** C8. On a table whose records all have an id, each name given is
    accounted for in one of two ways, never both and never neither:
    it matches a record whose id is among those of [matched] and is
    absent from [unmatched], or it matches nothing and is in
    [unmatched]. *)
Theorem every_candidate_accounted_for (names : list string) (g : globals) :
  records_have_id g = true ->
  exists matched_records unmatched_names,
    retrieve_knowledge names g = (inr (matched_records, unmatched_names), g)
    /\ forall name, In name names ->
         (exists r, match_of g name = Some r
                    /\ In (id_of r) (map id_of matched_records)
                    /\ ~ In name unmatched_names)
         \/ (match_of g name = None /\ In name unmatched_names).
Proof.
  intros Hwf. exists (first_by_id (hits g names)), (filter (no_match g) names).
  split; [now apply retrieve_knowledge_run|].
  intros name Hin. destruct (match_of g name) as [r|] eqn:Hm.
  - left. exists r. split; [reflexivity|]. split.
    + apply first_by_id_covers. unfold hits. apply in_flat_map.
      exists name. rewrite Hm. split; [exact Hin | now left].
    + intros Hu. apply filter_In in Hu. destruct Hu as [_ Hu].
      unfold no_match in Hu. rewrite Hm in Hu. discriminate.
  - right. split; [reflexivity|]. apply filter_In. split; [exact Hin|].
    unfold no_match. now rewrite Hm.
Qed.

(** On values, a call of [retrieve_knowledge] hands back the globals it
    was given; what it does to the objects is stated at the end, over
    the store. *)
Lemma retrieve_knowledge_globals (names : list string) (g : globals) :
  snd (retrieve_knowledge names g) = g
  /\ snd (retrieve_knowledge names (snd (retrieve_knowledge names g))) = g
  /\ fst (retrieve_knowledge names (snd (retrieve_knowledge names g)))
     = fst (retrieve_knowledge names g).
Proof.
  assert (H : snd (retrieve_knowledge names g) = g).
  { unfold retrieve_knowledge, bind.
    pose proof (retrieve_loop_globals names g
                  {| matched := []; unmatched := []; seen_ids := [] |}) as Hl.
    destruct (retrieve_loop _ names g) as [[x|l] g']; simpl in *; exact Hl. }
  rewrite H. auto.
Qed.

(** C10. A name that is empty once normalised, on a table that has keys
    but not the empty one, gets the record of the first key of the
    table, since the empty string is in every key; such a name is never
    in [unmatched]. *)
Theorem blank_name_matches_first_key (name : string) (threshold : Q)
    (g : globals) (key : string) (record : entry) (rest : Dict.dict entry) :
  PyStr.strip (PyStr.lower name) = "" ->
  ~ In "" (Dict.keys (INGREDIENT_LOOKUP g)) ->
  INGREDIENT_LOOKUP g = (key, record) :: rest ->
  fuzzy_match_ingredient name threshold g = (inr (Some record), g)
  /\ match_of g name = Some record
  /\ (forall names matched_records unmatched_names g',
        retrieve_knowledge names g
        = (inr (matched_records, unmatched_names), g') ->
        ~ In name unmatched_names).
Proof.
  intros Hblank Hnokey Hitems.
  assert (Hrun : forall th,
            fuzzy_match_ingredient name th g = (inr (Some record), g)).
  { intros th.
    run_match.
    rewrite Hblank. apply get_None_iff in Hnokey. rewrite Hnokey, Hitems.
    cbn [first_containing]. now rewrite (contains_empty key), orb_true_r. }
  assert (Hm : match_of g name = Some record).
  { unfold match_of. now rewrite Hrun. }
  split; [apply Hrun|]. split; [exact Hm|].
  intros names m u g' Hret Hin.
  unfold retrieve_knowledge, bind in Hret.
  destruct (retrieve_loop _ names g) as [[x|l] g''] eqn:Hloop; [discriminate|].
  unfold ret in Hret. inversion Hret; subst.
  rewrite (retrieve_loop_unmatched _ _ _ _ _ Hloop) in Hin. simpl in Hin.
  apply filter_In in Hin. destruct Hin as [_ Hno].
  unfold no_match in Hno. rewrite Hm in Hno. discriminate.
Qed.


(** * The sample knowledge base *)

Example sample_load : load_module sample_data = inr sample_globals.
Proof. reflexivity. Qed.

Example sample_retrieve :
  retrieve_knowledge
    ["sugar"; "SALT"; "Water"; "Sugar "; "Citric Acid (E330)"; "suger"; "qq"]
    sample_globals
  = (inr ([sample_record 1 "Sugar"; sample_record 5 " SALT ";
           sample_record 3 "Acid"],
          ["Water"; "qq"]),
     sample_globals).
Proof. vm_compute. reflexivity. Qed.

Example sugar_salt_load :
  load_module [sample_record 1 "Sugar"; sample_record 2 "Salt"]
  = inr sugar_salt.
Proof. reflexivity. Qed.

Example sugar_salt_retrieve :
  retrieve_knowledge ["sugar"; "SALT"; "Water"] sugar_salt
  = (inr ([sample_record 1 "Sugar"; sample_record 2 "Salt"], ["Water"]),
     sugar_salt).
Proof. vm_compute. reflexivity. Qed.

Example sugar_salt_twice :
  retrieve_knowledge ["Sugar"; "sugar "] sugar_salt
  = (inr ([sample_record 1 "Sugar"], []), sugar_salt).
Proof. vm_compute. reflexivity. Qed.

Example sample_retrieve_nothing :
  retrieve_knowledge [] sample_globals = (inr ([], []), sample_globals).
Proof. reflexivity. Qed.

Example sample_misspelled_strict :
  fuzzy_match_ingredient "suger" (99 # 100)%Q sample_globals
  = (inr None, sample_globals).
Proof. vm_compute. reflexivity. Qed.

(** A record without an id makes [retrieve_knowledge] raise as soon as a
    name matches it. *)
Example idless_retrieve :
  retrieve_knowledge ["Water"; "sugar"; "Salt"] idless_globals
  = (inl (KeyError "id"), idless_globals).
Proof. vm_compute. reflexivity. Qed.

(** So does a record whose id is a JSON array: [seen_ids] cannot hold
    it, and the test [record["id"] not in seen_ids] raises. *)
Example list_id_retrieve :
  let record := [("id", PyList "[1, 2]"); ("ingredient", PyStr "Sugar")] in
  let g := {| INGREDIENT_DB := [record];
              INGREDIENT_LOOKUP := [("sugar", record)] |} in
  load_module [record] = inr g
  /\ retrieve_knowledge ["Water"; "sugar"; "Salt"] g
     = (inl (TypeError "unhashable type: 'list'"), g).
Proof. split; vm_compute; reflexivity. Qed.

(** The score of ["suger"] against ["sugar"] is the float [0.8], which
    is a little above the rational 4/5; a threshold of [0.8] lets it
    through. *)
Example sample_misspelled_at_its_score :
  Qeq_bool (Difflib.ratio "suger" "sugar")
           (3602879701896397 # 4503599627370496) = true
  /\ fuzzy_match_ingredient "suger" (Difflib.float_div 8 10) sample_globals
     = (inr (Some (sample_record 1 "Sugar")), sample_globals).
Proof. split; vm_compute; reflexivity. Qed.

(** Quotients that no float holds are rounded, down or up: [2/3] and
    [12/13] as Python prints them are [0.6666666666666666] and
    [0.9230769230769231]. *)
Example float_div_rounds :
  Qeq_bool (Difflib.float_div 2 3) (6004799503160661 # 9007199254740992) = true
  /\ Qle_bool (Difflib.float_div 2 3) (2 # 3) = true
  /\ Qeq_bool (Difflib.float_div 12 13)
              (4157168886803535 # 4503599627370496) = true
  /\ Qle_bool (12 # 13) (Difflib.float_div 12 13) = true.
Proof. repeat split; vm_compute; reflexivity. Qed.

(** The default threshold is the float that the literal [0.65] stands
    for. *)
Example default_threshold_value :
  Qeq_bool default_threshold (5854679515581645 # 9007199254740992) = true.
Proof. vm_compute. reflexivity. Qed.

Lemma exact_match_first_witness :
  In "citric acid" (Dict.keys (INGREDIENT_LOOKUP sample_globals))
  /\ exists record,
       Dict.get (INGREDIENT_LOOKUP sample_globals) "citric acid" = Some record
       /\ fuzzy_match_ingredient " Citric ACID" default_threshold sample_globals
          = (inr (Some record), sample_globals).
Proof.
  assert (H : In "citric acid" (Dict.keys (INGREDIENT_LOOKUP sample_globals)))
    by (simpl; auto).
  split; [exact H|].
  exact (exact_match_first " Citric ACID" default_threshold sample_globals H).
Defined.

Lemma containment_first_in_order_witness :
  fuzzy_match_ingredient "Citric Acid (E330)" default_threshold sample_globals
  = (inr (Some (sample_record 3 "Acid")), sample_globals).
Proof.
  apply (containment_first_in_order
           "Citric Acid (E330)" default_threshold sample_globals
           "citric acid (e330)"
           [("sugar", sample_record 1 "Sugar");
            ("salt", sample_record 5 " SALT ")]
           [("citric acid", sample_record 4 "Citric Acid")]
           "acid" (sample_record 3 "Acid")).
  - reflexivity.
  - reflexivity.
  - reflexivity.
  - intros k r [H|[H|[]]]; inversion H; subst; split; reflexivity.
  - left. reflexivity.
Defined.

Lemma similarity_match_witness :
  fuzzy_match_ingredient "Suger" default_threshold sample_globals
  = (inr (Some (sample_record 1 "Sugar")), sample_globals)
  /\ fuzzy_match_ingredient "Suger" (99 # 100)%Q sample_globals
     = (inr None, sample_globals)
  /\ retrieve_step {| matched := []; unmatched := []; seen_ids := [] |}
       "Water" sample_globals
     = (inr {| matched := []; unmatched := ["Water"]; seen_ids := [] |},
        sample_globals).
Proof.
  assert (H1 : "suger" = PyStr.strip (PyStr.lower "Suger")) by reflexivity.
  assert (H2 : Dict.get (INGREDIENT_LOOKUP sample_globals) "suger" = None)
    by reflexivity.
  assert (H3 : first_containing "suger" (INGREDIENT_LOOKUP sample_globals)
               = None) by reflexivity.
  split; [|split].
  - apply (proj1 (similarity_match "Suger" default_threshold sample_globals
                    "suger" H1 H2 H3)
             [] "sugar" (sample_record 1 "Sugar")
             [("salt", sample_record 5 " SALT ");
              ("acid", sample_record 3 "Acid");
              ("citric acid", sample_record 4 "Citric Acid")]).
    + reflexivity.
    + intros k r [].
    + intros k r [H|[H|[H|[]]]]; inversion H; subst; vm_compute; discriminate.
    + reflexivity.
    + vm_compute; discriminate.
  - apply (proj1 (proj2 (similarity_match "Suger" (99 # 100)%Q sample_globals
                           "suger" H1 H2 H3))).
    intros k r [H|[H|[H|[H|[]]]]]; inversion H; subst; left; reflexivity.
  - apply (proj2 (proj2 (similarity_match "Water" default_threshold
                           sample_globals "water" eq_refl eq_refl eq_refl))).
    reflexivity.
Defined.

(** C3 as it is worded fails at [threshold = 0]: no key of the sample
    table shares a character with ["xyz"], so the highest score is 0,
    which is at least the threshold, and yet no record was tracked and
    the answer is [None]. *)
Lemma similarity_match_zero_threshold :
  Dict.get (INGREDIENT_LOOKUP sample_globals)
    (PyStr.strip (PyStr.lower "xyz")) = None
  /\ first_containing (PyStr.strip (PyStr.lower "xyz"))
       (INGREDIENT_LOOKUP sample_globals) = None
  /\ (forall k r, In (k, r) (INGREDIENT_LOOKUP sample_globals) ->
        (0 <= Difflib.ratio (PyStr.strip (PyStr.lower "xyz")) k)%Q
        /\ (Difflib.ratio (PyStr.strip (PyStr.lower "xyz")) k <= 0)%Q)
  /\ fuzzy_match_ingredient "xyz" 0%Q sample_globals
     = (inr None, sample_globals).
Proof.
  split; [reflexivity|]. split; [reflexivity|]. split; [|reflexivity].
  intros k r [H|[H|[H|[H|[]]]]]; inversion H; subst;
    split; vm_compute; discriminate.
Qed.

Lemma matched_deduplicated_by_id_witness :
  records_have_id sample_globals = true
  /\ exists matched_records unmatched_names,
       retrieve_knowledge ["Sugar"; "Water"; "sugar "; "suger"] sample_globals
       = (inr (matched_records, unmatched_names), sample_globals)
       /\ matched_records = [sample_record 1 "Sugar"]
       /\ NoDup (map id_of matched_records).
Proof.
  split; [reflexivity|].
  destruct (matched_deduplicated_by_id
              ["Sugar"; "Water"; "sugar "; "suger"] sample_globals eq_refl)
    as (m & u & Hrun & Hm & Hnd & _).
  exists m, u. split; [exact Hrun|]. split; [|exact Hnd].
  rewrite Hm. reflexivity.
Defined.

Lemma unmatched_verbatim_in_order_witness :
  records_have_id sample_globals = true
  /\ exists matched_records unmatched_names,
       retrieve_knowledge ["  ZZ top"; "Sugar"; "Water"; "qq"; "Water"]
         sample_globals
       = (inr (matched_records, unmatched_names), sample_globals)
       /\ unmatched_names = ["  ZZ top"; "Water"; "qq"; "Water"].
Proof.
  split; [reflexivity|].
  destruct (unmatched_verbatim_in_order
              ["  ZZ top"; "Sugar"; "Water"; "qq"; "Water"]
              sample_globals eq_refl)
    as (m & u & Hrun & Hu & _).
  exists m, u. split; [exact Hrun|]. rewrite Hu. reflexivity.
Defined.

Lemma every_candidate_accounted_for_witness :
  records_have_id sample_globals = true
  /\ exists matched_records unmatched_names,
       retrieve_knowledge ["Sugar"; "Water"; "sugar "] sample_globals
       = (inr (matched_records, unmatched_names), sample_globals)
       /\ forall name, In name ["Sugar"; "Water"; "sugar "] ->
            (exists r, match_of sample_globals name = Some r
                       /\ In (id_of r) (map id_of matched_records)
                       /\ ~ In name unmatched_names)
            \/ (match_of sample_globals name = None
                /\ In name unmatched_names).
Proof.
  split; [reflexivity|].
  exact (every_candidate_accounted_for
           ["Sugar"; "Water"; "sugar "] sample_globals eq_refl).
Defined.

Lemma blank_name_matches_first_key_witness :
  PyStr.strip (PyStr.lower "   ") = ""
  /\ fuzzy_match_ingredient "   " default_threshold sample_globals
     = (inr (Some (sample_record 1 "Sugar")), sample_globals).
Proof.
  split; [reflexivity|].
  apply (blank_name_matches_first_key "   " default_threshold sample_globals
           "sugar" (sample_record 1 "Sugar")
           [("salt", sample_record 5 " SALT ");
            ("acid", sample_record 3 "Acid");
            ("citric acid", sample_record 4 "Citric Acid")]).
  - reflexivity.
  - simpl. intros [H|[H|[H|[H|[]]]]]; discriminate.
  - reflexivity.
Defined.

Lemma lookup_last_write_wins_witness :
  forallb has_name sample_data = true
  /\ exists g,
       load_module sample_data = inr g
       /\ NoDup (Dict.keys (INGREDIENT_LOOKUP g))
       /\ Dict.get (INGREDIENT_LOOKUP g) "salt"
          = Some (sample_record 5 " SALT ").
Proof.
  split; [reflexivity|].
  destruct (lookup_last_write_wins sample_data eq_refl)
    as (g & Hload & Hnd & _ & _ & Hlast).
  exists g. split; [exact Hload|]. split; [exact Hnd|].
  apply (Hlast [sample_record 1 "Sugar"; sample_record 2 "Salt";
                sample_record 3 "Acid"; sample_record 4 "Citric Acid"]
               (sample_record 5 " SALT ") [] "salt").
  - reflexivity.
  - reflexivity.
  - intros e' [].
Defined.



(** * The matcher always answers

    [find_longest_match] returns a block inside the window it was given,
    so every pass of the loop of [get_matching_blocks] makes the queue
    lighter, and the passes allowed in [Difflib.get_matching_blocks] are
    enough to empty it. *)

Lemma scan_row_within (alo i blo bhi : nat) (j2len : list (nat * nat)) :
  alo <= i ->
  (forall j, Difflib.j2len_get j2len j <= i - alo) ->
  forall js newj2len best,
    (forall j, Difflib.j2len_get newj2len j <= i + 1 - alo) ->
    within alo (i + 1) best ->
    (forall j, Difflib.j2len_get
                 (fst (Difflib.scan_row js i blo bhi j2len newj2len best)) j
               <= i + 1 - alo)
    /\ within alo (i + 1)
         (snd (Difflib.scan_row js i blo bhi j2len newj2len best)).
Proof.
  intros Hi Hold. induction js as [|j js IH]; intros newj2len best Hnew Hbest.
  - simpl. auto.
  - cbn [Difflib.scan_row].
    destruct (j <? blo); [now apply IH|].
    destruct (bhi <=? j); [simpl; auto|].
    destruct best as [[bi bj] bk].
    set (k := match j with 0 => 0 | S j' => Difflib.j2len_get j2len j' end + 1).
    assert (Hk : 1 <= k <= i + 1 - alo).
    { unfold k. destruct j as [|j']; [lia|]. specialize (Hold j'). lia. }
    apply IH.
    + intros j0. simpl. destruct (j =? j0); [lia | apply Hnew].
    + destruct (bk <? k); [|exact Hbest]. simpl. lia.
Qed.

Lemma scan_rows_within (a b : list ascii) (alo blo bhi : nat) :
  forall n s j2len best,
    alo <= s ->
    (forall j, Difflib.j2len_get j2len j <= s - alo) ->
    within alo s best ->
    within alo (s + n)
      (Difflib.scan_rows a b (seq s n) blo bhi j2len best).
Proof.
  induction n as [|n IH]; intros s j2len best Hs Hold Hbest.
  - simpl. now rewrite Nat.add_0_r.
  - cbn [seq Difflib.scan_rows].
    assert (Hbest' : within alo (s + 1) best).
    { destruct best as [[bi bj] bk]. simpl in *. lia. }
    pose proof (scan_row_within alo s blo bhi j2len Hs Hold
                  (Difflib.b2j_get b (Difflib.at_index a s)) [] best
                  (fun j => Nat.le_0_l _) Hbest') as [Hnew Hb].
    destruct (Difflib.scan_row _ s blo bhi j2len [] best) as [newj2len best'].
    simpl in Hnew, Hb.
    replace (s + S n) with (S s + n) by lia.
    apply IH; [lia | | ].
    + intros j. specialize (Hnew j). lia.
    + replace (S s) with (s + 1) by lia. exact Hb.
Qed.

Lemma extend_left_within (a b : list ascii) (alo blo hi : nat) :
  forall besti bestj bestsize,
    within alo hi (besti, bestj, bestsize) ->
    within alo hi (Difflib.extend_left a b alo blo besti bestj bestsize).
Proof.
  induction besti as [|i' IH]; intros bestj bestsize H; [exact H|].
  cbn [Difflib.extend_left]. destruct bestj as [|j']; [exact H|].
  destruct (_ && _) eqn:E; [|exact H].
  apply andb_prop in E. destruct E as [E _].
  apply andb_prop in E. destruct E as [E _]. apply Nat.ltb_lt in E.
  apply IH. simpl in *. lia.
Qed.

Lemma extend_right_within (a b : list ascii) (alo ahi bhi : nat) :
  forall room besti bestj bestsize,
    within alo ahi (besti, bestj, bestsize) ->
    within alo ahi
      (Difflib.extend_right a b ahi bhi besti bestj bestsize room).
Proof.
  induction room as [|room IH]; intros besti bestj bestsize H; [exact H|].
  cbn [Difflib.extend_right].
  destruct (_ && _) eqn:E; [|exact H].
  apply andb_prop in E. destruct E as [E _].
  apply andb_prop in E. destruct E as [E _]. apply Nat.ltb_lt in E.
  apply IH. simpl in *. lia.
Qed.

(** The longest match of a window of [a] lies in that window. *)
Lemma find_longest_match_within (a b : list ascii) (alo ahi blo bhi : nat) :
  alo <= ahi ->
  within alo ahi (Difflib.find_longest_match a b alo ahi blo bhi).
Proof.
  intros Hlo. unfold Difflib.find_longest_match.
  pose proof (scan_rows_within a b alo blo bhi (ahi - alo) alo [] (alo, blo, 0)
                (Nat.le_refl _) (fun j => Nat.le_0_l _)) as Hscan.
  replace (alo + (ahi - alo)) with ahi in Hscan by lia.
  assert (H0 : within alo alo (alo, blo, 0)) by (simpl; lia).
  specialize (Hscan H0).
  destruct (Difflib.scan_rows _ _ _ _ _ _ _) as [[i j] k].
  pose proof (extend_left_within a b alo blo ahi i j k Hscan) as Hleft.
  destruct (Difflib.extend_left _ _ _ _ _ _ _) as [[i' j'] k'].
  now apply extend_right_within.
Qed.

(** The loop of [get_matching_blocks] ends within as many passes as the
    queue weighs. *)
Lemma blocks_loop_enough_fuel (a b : list ascii) :
  forall fuel queue matching_blocks,
    Forall (fun w => let '(alo, ahi, _, _) := w in alo <= ahi) queue ->
    queue_weight queue <= fuel ->
    exists blocks,
      Difflib.blocks_loop fuel a b queue matching_blocks = Some blocks.
Proof.
  induction fuel as [|fuel IH]; intros queue acc Hq Hw.
  - destruct queue as [|[[[alo ahi] blo] bhi] queue]; simpl in *; [eauto | lia].
  - destruct queue as [|[[[alo ahi] blo] bhi] queue]; [simpl; eauto|].
    cbn [Difflib.blocks_loop]. cbn [queue_weight] in Hw.
    inversion Hq as [|? ? Hlo Hq']; subst.
    pose proof (find_longest_match_within a b alo ahi blo bhi Hlo) as Hin.
    destruct (Difflib.find_longest_match a b alo ahi blo bhi) as [[i j] k].
    simpl in Hin. destruct (k =? 0) eqn:Ek.
    + apply IH; [exact Hq' | lia].
    + apply Nat.eqb_neq in Ek.
      destruct ((alo <? i) && (blo <? j)) eqn:E1;
        destruct ((i + k <? ahi) && (j + k <? bhi)) eqn:E2;
        apply IH; repeat constructor; try exact Hq';
        cbn [queue_weight]; try lia.
Qed.

(** [Difflib.get_matching_blocks] never runs out of passes. *)
Lemma get_matching_blocks_answers (a b : list ascii) :
  exists blocks,
    Difflib.blocks_loop (2 * List.length a + 2) a b
      [(0, List.length a, 0, List.length b)] [] = Some blocks
    /\ Difflib.get_matching_blocks a b = blocks.
Proof.
  destruct (blocks_loop_enough_fuel a b (2 * List.length a + 2)
              [(0, List.length a, 0, List.length b)] []) as [blocks H].
  - repeat constructor. lia.
  - simpl. lia.
  - exists blocks. split; [exact H|].
    unfold Difflib.get_matching_blocks. now rewrite H.
Qed.

(** * Further properties of the retriever *)

(** ** Normalisation, [name.lower().strip()] *)

Lemma lower_char_idem (c : ascii) :
  PyStr.lower_char (PyStr.lower_char c) = PyStr.lower_char c.
Proof. destruct c as [[] [] [] [] [] [] [] []]; reflexivity. Qed.

Lemma isspace_lower_char (c : ascii) :
  PyStr.isspace (PyStr.lower_char c) = PyStr.isspace c.
Proof. destruct c as [[] [] [] [] [] [] [] []]; reflexivity. Qed.

Lemma lower_idem (s : string) : PyStr.lower (PyStr.lower s) = PyStr.lower s.
Proof.
  induction s as [|c s IH]; simpl; [reflexivity|].
  now rewrite lower_char_idem, IH.
Qed.

Lemma lower_lstrip (s : string) :
  PyStr.lower (PyStr.lstrip s) = PyStr.lstrip (PyStr.lower s).
Proof.
  induction s as [|c s IH]; simpl; [reflexivity|].
  rewrite isspace_lower_char. destruct (PyStr.isspace c); [exact IH | reflexivity].
Qed.

Lemma lower_rstrip (s : string) :
  PyStr.lower (PyStr.rstrip s) = PyStr.rstrip (PyStr.lower s).
Proof.
  induction s as [|c s IH]; simpl; [reflexivity|].
  rewrite <- IH, isspace_lower_char.
  destruct (PyStr.rstrip s) as [|d r]; simpl; [|reflexivity].
  now destruct (PyStr.isspace c).
Qed.

(** Lower-casing and stripping can be done in either order. *)
Lemma lower_strip (s : string) :
  PyStr.lower (PyStr.strip s) = PyStr.strip (PyStr.lower s).
Proof. unfold PyStr.strip. now rewrite lower_rstrip, lower_lstrip. Qed.

Lemma lstrip_head (s : string) :
  PyStr.lstrip s = ""
  \/ exists c t, PyStr.lstrip s = String c t /\ PyStr.isspace c = false.
Proof.
  induction s as [|c s IH]; simpl; [now left|].
  destruct (PyStr.isspace c) eqn:E; [exact IH|].
  right. now exists c, s.
Qed.

Lemma rstrip_cons (c : ascii) (s : string) :
  PyStr.rstrip (String c s)
  = match PyStr.rstrip s with
    | EmptyString =>
        if PyStr.isspace c then EmptyString else String c EmptyString
    | r => String c r
    end.
Proof. reflexivity. Qed.

Lemma rstrip_idem (s : string) : PyStr.rstrip (PyStr.rstrip s) = PyStr.rstrip s.
Proof.
  induction s as [|c s IH]; [reflexivity|].
  rewrite rstrip_cons.
  destruct (PyStr.rstrip s) as [|d r] eqn:E.
  - destruct (PyStr.isspace c) eqn:Ec; [reflexivity|].
    rewrite rstrip_cons. simpl. now rewrite Ec.
  - rewrite rstrip_cons, IH. reflexivity.
Qed.

Lemma lstrip_rstrip_head (c : ascii) (t : string) :
  PyStr.isspace c = false ->
  PyStr.lstrip (PyStr.rstrip (String c t)) = PyStr.rstrip (String c t).
Proof.
  intros Hc. rewrite rstrip_cons.
  destruct (PyStr.rstrip t); rewrite ?Hc; simpl; now rewrite Hc.
Qed.

Lemma strip_idem (s : string) : PyStr.strip (PyStr.strip s) = PyStr.strip s.
Proof.
  unfold PyStr.strip.
  destruct (lstrip_head s) as [-> | (c & t & -> & Hc)]; [reflexivity|].
  rewrite (lstrip_rstrip_head c t Hc). apply rstrip_idem.
Qed.

Lemma normalise_idem (s : string) :
  PyStr.strip (PyStr.lower (PyStr.strip (PyStr.lower s)))
  = PyStr.strip (PyStr.lower s).
Proof. now rewrite lower_strip, lower_idem, strip_idem. Qed.

(** X1. Normalising a name before it is given to
    [fuzzy_match_ingredient] changes nothing: the function sees a name
    only through [name.lower().strip()], and normalising twice is
    normalising once. *)
Theorem normalised_name_same_match (name : string) (threshold : Q)
    (g : globals) :
  fuzzy_match_ingredient (PyStr.strip (PyStr.lower name)) threshold g
  = fuzzy_match_ingredient name threshold g.
Proof. run_match. now rewrite normalise_idem. Qed.

(** ** The table and the data it is loaded from *)

Lemma build_lookup_length (db : list entry) :
  forall lookup table,
    build_lookup db lookup = inr table ->
    List.length table <= List.length lookup + List.length db.
Proof.
  induction db as [|e db IH]; simpl; intros lookup table H.
  - inversion H; subst. lia.
  - destruct (entry_key e) as [x|key]; [discriminate|].
    apply IH in H.
    assert (Hs : List.length (Dict.set lookup key e) <= S (List.length lookup)).
    { clear. induction lookup as [|[k0 v0] d IHd]; simpl; [lia|].
      destruct (String.eqb k0 key); simpl; lia. }
    lia.
Qed.

(** X2. After loading, the keys of the table are exactly the normalised
    names of the records of [data.json], so the table has at most as
    many items as there are records, and [INGREDIENT_DB] is the data as
    it was read. *)
Theorem loaded_keys_are_the_names (data : list entry) (g : globals) :
  load_module data = inr g ->
  INGREDIENT_DB g = data
  /\ (forall key, In key (Dict.keys (INGREDIENT_LOOKUP g))
                  <-> exists e, In e data /\ entry_key e = inr key)
  /\ List.length (INGREDIENT_LOOKUP g) <= List.length data.
Proof.
  unfold load_module.
  destruct (build_lookup data []) as [x|table] eqn:Hb; [discriminate|].
  intros H; inversion H; subst; simpl. split; [reflexivity|]. split.
  - intros key. rewrite (build_lookup_In_keys _ _ _ Hb key). simpl. tauto.
  - apply build_lookup_length in Hb. simpl in Hb. exact Hb.
Qed.

(** X3. After loading, every key of the table is in normal form, and
    giving the key itself as a name returns the record stored under it,
    whatever the threshold. *)
Theorem index_key_round_trip (data : list entry) (g : globals)
    (key : string) (record : entry) (threshold : Q) :
  load_module data = inr g ->
  In (key, record) (INGREDIENT_LOOKUP g) ->
  PyStr.strip (PyStr.lower key) = key
  /\ fuzzy_match_ingredient key threshold g = (inr (Some record), g).
Proof.
  unfold load_module.
  destruct (build_lookup data []) as [x|table] eqn:Hb; [discriminate|].
  intros H Hin; inversion H; subst; simpl in *.
  assert (Hnorm : PyStr.strip (PyStr.lower key) = key).
  { destruct (build_lookup_items _ _ _ Hb _ _ Hin) as [[]|[_ Hk]].
    unfold entry_key, Dict.getitem in Hk.
    destruct (Dict.get record "ingredient") as [[z|s|t|t]|]; try discriminate.
    simpl in Hk. inversion Hk; subst. apply normalise_idem. }
  split; [exact Hnorm|].
  run_match. cbn [INGREDIENT_LOOKUP]. rewrite Hnorm.
  rewrite (In_get table key record); [reflexivity | | exact Hin].
  eapply build_lookup_NoDup; [exact Hb | constructor].
Qed.

(** X4. After loading, the name of a record of [data.json], given as it
    is written there, is matched exactly: [fuzzy_match_ingredient]
    returns that record, provided no later record has the same
    normalised name. *)
Theorem own_name_is_found (before after : list entry) (e : entry)
    (name : string) (g : globals) (threshold : Q) :
  load_module (before ++ e :: after) = inr g ->
  Dict.get e "ingredient" = Some (PyStr name) ->
  (forall e', In e' after -> entry_key e' <> entry_key e) ->
  fuzzy_match_ingredient name threshold g = (inr (Some e), g).
Proof.
  unfold load_module.
  destruct (build_lookup (before ++ e :: after) []) as [x|table] eqn:Hb;
    [discriminate|].
  intros H Hname Hlast; inversion H; subst.
  assert (Hk : entry_key e = inr (PyStr.strip (PyStr.lower name))).
  { unfold entry_key, Dict.getitem. now rewrite Hname. }
  rewrite Hk in Hlast.
  run_match. cbn [INGREDIENT_LOOKUP].
  now rewrite (build_lookup_last before after e _ Hk Hlast _ _ Hb).
Qed.

(** ** What a match rests on *)

Lemma first_containing_hit normalised items record :
  first_containing normalised items = Some record ->
  exists key,
    In (key, record) items
    /\ PyStr.contains normalised key || PyStr.contains key normalised = true.
Proof.
  induction items as [|[k r] items IH]; simpl; [discriminate|].
  destruct (_ || _) eqn:E.
  - intros H; inversion H; subst. exists k. split; [now left | exact E].
  - intros H. destruct (IH H) as (key & Hin & Hc). exists key. split; auto.
Qed.

(** X5. A record that [fuzzy_match_ingredient] returns is a record of
    the table whose key equals the normalised name, or is in it, or
    holds it, or scores above 0 and at least [threshold] against it:
    nothing is returned without one of the three steps standing for
    it. *)
Theorem match_is_justified (name : string) (threshold : Q) (g g' : globals)
    (record : entry) :
  fuzzy_match_ingredient name threshold g = (inr (Some record), g') ->
  exists key,
    In (key, record) (INGREDIENT_LOOKUP g)
    /\ (key = PyStr.strip (PyStr.lower name)
        \/ PyStr.contains (PyStr.strip (PyStr.lower name)) key = true
        \/ PyStr.contains key (PyStr.strip (PyStr.lower name)) = true
        \/ ((0 < Difflib.ratio (PyStr.strip (PyStr.lower name)) key)%Q
            /\ (threshold
                <= Difflib.ratio (PyStr.strip (PyStr.lower name)) key)%Q)).
Proof.
  run_match.
  destruct (Dict.get _ _) as [r|] eqn:E1.
  - intros H; inversion H; subst. eexists. split; [eapply get_In; eauto|].
    now left.
  - destruct (first_containing _ _) as [r|] eqn:E2.
    + intros H; inversion H; subst.
      destruct (first_containing_hit _ _ _ E2) as (key & Hin & Hc).
      exists key. split; [exact Hin|].
      apply orb_true_iff in Hc. tauto.
    + unfold best_match.
      destruct (best_scan (PyStr.strip (PyStr.lower name))
                  (INGREDIENT_LOOKUP g) (0%Q, None))
        as [[Hres _] | (before & key & r & after & Hit & Hres & Hlt & _)];
        cbv zeta in Hres; rewrite Hres.
      * destruct (Qle_bool threshold 0); discriminate.
      * destruct (Qle_bool threshold _) eqn:E; [|discriminate].
        intros H; inversion H; subst. exists key. split.
        -- rewrite Hit. apply in_or_app. right. now left.
        -- right. right. right. split; [exact Hlt|].
           now apply Qle_bool_iff.
Qed.

(** X6. Lowering the threshold never loses or changes a match: a record
    returned at one threshold is returned at every lower one. *)
Theorem lower_threshold_keeps_match (name : string) (threshold lower : Q)
    (g : globals) (record : entry) :
  (lower <= threshold)%Q ->
  fuzzy_match_ingredient name threshold g = (inr (Some record), g) ->
  fuzzy_match_ingredient name lower g = (inr (Some record), g).
Proof.
  intros Hle. run_match.
  destruct (Dict.get _ _); [auto|].
  destruct (first_containing _ _); [auto|].
  destruct (best_match _ _) as [best_score best_record].
  destruct (Qle_bool threshold best_score) eqn:E; [|discriminate].
  apply Qle_bool_iff in E.
  assert (E' : Qle_bool lower best_score = true).
  { apply Qle_bool_iff. eapply Qle_trans; eauto. }
  now rewrite E'.
Qed.

(** ** More on [retrieve_knowledge] *)




Lemma filter_keeps_all {A} (p : A -> bool) (l : list A) :
  (forall x, In x l -> p x = true) -> filter p l = l.
Proof.
  induction l as [|x l IH]; simpl; intros H; [reflexivity|].
  rewrite (H x (or_introl eq_refl)), IH; [reflexivity|].
  intros y Hy. apply H. now right.
Qed.





(** X9. On a table whose records all have an id, [retrieve_knowledge]
    returns nothing of its own making: every matched record is a record
    of the table that one of the names matches, and every unmatched name
    is one of the names given. *)
Theorem retrieve_returns_only_what_it_was_given (names : list string)
    (g : globals) :
  records_have_id g = true ->
  exists matched_records unmatched_names,
    retrieve_knowledge names g = (inr (matched_records, unmatched_names), g)
    /\ (forall r, In r matched_records ->
          (exists key, In (key, r) (INGREDIENT_LOOKUP g))
          /\ exists name, In name names /\ match_of g name = Some r)
    /\ (forall name, In name unmatched_names -> In name names).
Proof.
  intros Hwf. exists (first_by_id (hits g names)), (filter (no_match g) names).
  split; [now apply retrieve_knowledge_run|]. split.
  - intros r Hr. apply first_by_id_incl in Hr. unfold hits in Hr.
    apply in_flat_map in Hr. destruct Hr as (name & Hname & Hr).
    destruct (match_of g name) as [r0|] eqn:Hm; [|destruct Hr].
    destruct Hr as [<- | []].
    split; [|now exists name].
    pose proof (match_of_run name g) as Hrun. rewrite Hm in Hrun.
    eapply fuzzy_match_item; eauto.
  - intros name Hin. apply filter_In in Hin. tauto.
Qed.

(** X10. With an empty table nothing matches, at any threshold, and
    [retrieve_knowledge] returns every name as unmatched, in the order
    given. *)
Theorem empty_table_matches_nothing (g : globals) :
  INGREDIENT_LOOKUP g = [] ->
  (forall name threshold,
     fuzzy_match_ingredient name threshold g = (inr None, g))
  /\ (forall names, retrieve_knowledge names g = (inr ([], names), g)).
Proof.
  intros Hempty.
  assert (Hnone : forall name threshold,
            fuzzy_match_ingredient name threshold g = (inr None, g)).
  { intros name threshold. destruct g as [db table].
    cbn [INGREDIENT_LOOKUP] in Hempty. subst table.
    run_match. unfold best_match.
    cbn [INGREDIENT_LOOKUP Dict.get first_containing fold_left].
    now destruct (Qle_bool threshold 0). }
  split; [exact Hnone|]. intros names.
  assert (Hwf : records_have_id g = true).
  { unfold records_have_id. now rewrite Hempty. }
  rewrite (retrieve_knowledge_run names g Hwf).
  assert (Hm : forall name, match_of g name = None).
  { intros name. unfold match_of. now rewrite Hnone. }
  assert (Hhits : hits g names = []).
  { induction names as [|n ns IHn]; [reflexivity|].
    now rewrite hits_cons, Hm. }
  rewrite Hhits, filter_keeps_all; [reflexivity|].
  intros name _. unfold no_match. now rewrite Hm.
Qed.

Lemma same_id_sym (r r' : entry) : same_id r r' = same_id r' r.
Proof.
  destruct (same_id r r') eqn:E1, (same_id r' r) eqn:E2; try reflexivity.
  - apply same_id_iff in E1. symmetry in E1. apply same_id_iff in E1. congruence.
  - apply same_id_iff in E2. symmetry in E2. apply same_id_iff in E2. congruence.
Qed.

(** Taking out the records with the id of [r0] does not change whether
    a record with another id has its id in the list. *)
Lemma existsb_same_id_filter (r0 r : entry) (records : list entry) :
  same_id r0 r = false ->
  existsb (same_id r) (filter (fun x => negb (same_id r0 x)) records)
  = existsb (same_id r) records.
Proof.
  intros Hne. induction records as [|x records IH]; simpl; [reflexivity|].
  destruct (same_id r0 x) eqn:E; simpl; [|now rewrite IH].
  rewrite IH. destruct (same_id r x) eqn:E'; [|reflexivity].
  apply same_id_iff in E, E'.
  assert (same_id r0 r = true) by (apply same_id_iff; congruence).
  congruence.
Qed.

(** The records kept of two lists put end to end: those kept of the
    first, then those kept of the second whose id the first does not
    have. *)
Lemma first_by_id_app (xs ys : list entry) :
  first_by_id (xs ++ ys)
  = first_by_id xs
    ++ filter (fun r => negb (existsb (same_id r) (first_by_id xs)))
         (first_by_id ys).
Proof.
  induction xs as [|r0 xs IH]; simpl.
  - symmetry. apply filter_keeps_all. reflexivity.
  - f_equal. rewrite IH, filter_app. f_equal.
    rewrite filter_both. apply filter_ext. intros r.
    rewrite (same_id_sym r r0).
    destruct (same_id r0 r) eqn:E; simpl.
    + apply andb_false_r.
    + rewrite andb_true_r. now rewrite (existsb_same_id_filter r0 r _ E).
Qed.

Lemma hits_app (g : globals) (xs ys : list string) :
  hits g (xs ++ ys) = hits g xs ++ hits g ys.
Proof. unfold hits. apply flat_map_app. Qed.

(** X11. On a table whose records all have an id, retrieving for two
    lists of names put end to end gives the matched records of the
    first list, followed by those of the second list whose id the first
    list did not match, and the unmatched names of the first list
    followed by those of the second. *)
Theorem retrieve_of_appended_names (xs ys : list string) (g : globals) :
  records_have_id g = true ->
  exists mx ux my uy,
    retrieve_knowledge xs g = (inr (mx, ux), g)
    /\ retrieve_knowledge ys g = (inr (my, uy), g)
    /\ retrieve_knowledge (xs ++ ys) g
       = (inr (mx ++ filter (fun r => negb (existsb (same_id r) mx)) my,
               ux ++ uy), g).
Proof.
  intros Hwf.
  exists (first_by_id (hits g xs)), (filter (no_match g) xs),
         (first_by_id (hits g ys)), (filter (no_match g) ys).
  rewrite !(retrieve_knowledge_run _ g Hwf).
  split; [reflexivity|]. split; [reflexivity|].
  now rewrite hits_app, first_by_id_app, filter_app.
Qed.

(** ** The range of a score *)

Lemma scan_row_within_b (i blo bhi : nat) (j2len : list (nat * nat)) :
  (forall j, Difflib.j2len_get j2len j <= j + 1 - blo) ->
  forall js newj2len best,
    (forall j, Difflib.j2len_get newj2len j <= j + 1 - blo) ->
    within_b blo bhi best ->
    (forall j, Difflib.j2len_get
                 (fst (Difflib.scan_row js i blo bhi j2len newj2len best)) j
               <= j + 1 - blo)
    /\ within_b blo bhi
         (snd (Difflib.scan_row js i blo bhi j2len newj2len best)).
Proof.
  intros Hold. induction js as [|j js IH]; intros newj2len best Hnew Hbest.
  - simpl. auto.
  - cbn [Difflib.scan_row].
    destruct (j <? blo) eqn:Elo; [now apply IH|]. apply Nat.ltb_ge in Elo.
    destruct (bhi <=? j) eqn:Ehi; [simpl; auto|]. apply Nat.leb_gt in Ehi.
    destruct best as [[bi bj] bk].
    set (k := match j with 0 => 0 | S j' => Difflib.j2len_get j2len j' end + 1).
    assert (Hk : 1 <= k <= j + 1 - blo).
    { unfold k. destruct j as [|j']; [lia|]. specialize (Hold j'). lia. }
    apply IH.
    + intros j0. simpl. destruct (j =? j0) eqn:E; [|apply Hnew].
      apply Nat.eqb_eq in E. subst. lia.
    + destruct (bk <? k); [|exact Hbest]. simpl. lia.
Qed.

Lemma scan_rows_within_b (a b : list ascii) (blo bhi : nat) :
  forall rows j2len best,
    (forall j, Difflib.j2len_get j2len j <= j + 1 - blo) ->
    within_b blo bhi best ->
    within_b blo bhi (Difflib.scan_rows a b rows blo bhi j2len best).
Proof.
  induction rows as [|i rows IH]; intros j2len best Hold Hbest; [exact Hbest|].
  cbn [Difflib.scan_rows].
  pose proof (scan_row_within_b i blo bhi j2len Hold
                (Difflib.b2j_get b (Difflib.at_index a i)) [] best
                (fun j => Nat.le_0_l _) Hbest) as [Hnew Hb].
  destruct (Difflib.scan_row _ i blo bhi j2len [] best) as [newj2len best'].
  simpl in Hnew, Hb. now apply IH.
Qed.

Lemma extend_left_within_b (a b : list ascii) (alo blo hi : nat) :
  forall besti bestj bestsize,
    within_b blo hi (besti, bestj, bestsize) ->
    within_b blo hi (Difflib.extend_left a b alo blo besti bestj bestsize).
Proof.
  induction besti as [|i' IH]; intros bestj bestsize H; [exact H|].
  cbn [Difflib.extend_left]. destruct bestj as [|j']; [exact H|].
  destruct (_ && _) eqn:E; [|exact H].
  apply andb_prop in E. destruct E as [E _].
  apply andb_prop in E. destruct E as [_ E]. apply Nat.ltb_lt in E.
  apply IH. simpl in *. lia.
Qed.

Lemma extend_right_within_b (a b : list ascii) (blo ahi bhi : nat) :
  forall room besti bestj bestsize,
    within_b blo bhi (besti, bestj, bestsize) ->
    within_b blo bhi
      (Difflib.extend_right a b ahi bhi besti bestj bestsize room).
Proof.
  induction room as [|room IH]; intros besti bestj bestsize H; [exact H|].
  cbn [Difflib.extend_right].
  destruct (_ && _) eqn:E; [|exact H].
  apply andb_prop in E. destruct E as [E _].
  apply andb_prop in E. destruct E as [_ E]. apply Nat.ltb_lt in E.
  apply IH. simpl in *. lia.
Qed.

(** The longest match of a window of [b] lies in that window. *)
Lemma find_longest_match_within_b (a b : list ascii) (alo ahi blo bhi : nat) :
  blo <= bhi ->
  within_b blo bhi (Difflib.find_longest_match a b alo ahi blo bhi).
Proof.
  intros Hlo. unfold Difflib.find_longest_match.
  assert (H0 : within_b blo bhi (alo, blo, 0)) by (simpl; lia).
  pose proof (scan_rows_within_b a b blo bhi (seq alo (ahi - alo)) []
                (alo, blo, 0) (fun j => Nat.le_0_l _) H0) as Hscan.
  destruct (Difflib.scan_rows _ _ _ _ _ _ _) as [[i j] k].
  pose proof (extend_left_within_b a b alo blo bhi i j k Hscan) as Hleft.
  destruct (Difflib.extend_left _ _ _ _ _ _ _) as [[i' j'] k'].
  now apply extend_right_within_b.
Qed.

Lemma sizes_app (xs ys : list Difflib.Match) :
  sizes (xs ++ ys) = sizes xs + sizes ys.
Proof.
  induction xs as [|[[i j] k] xs IH]; simpl; [reflexivity|]. rewrite IH. lia.
Qed.

(** The blocks found fit in what the queue still had room for, on the
    side of [a] and on the side of [b]. *)
Lemma blocks_loop_sizes (a b : list ascii) :
  forall fuel queue matching_blocks blocks,
    Forall window_ok queue ->
    Difflib.blocks_loop fuel a b queue matching_blocks = Some blocks ->
    sizes blocks <= sizes matching_blocks + queue_room_a queue
    /\ sizes blocks <= sizes matching_blocks + queue_room_b queue.
Proof.
  induction fuel as [|fuel IH]; intros queue acc blocks Hq H.
  - destruct queue as [|[[[alo ahi] blo] bhi] queue]; simpl in H;
      [|discriminate]. inversion H; subst. simpl. lia.
  - destruct queue as [|[[[alo ahi] blo] bhi] queue].
    + simpl in H. inversion H; subst. simpl. lia.
    + cbn [Difflib.blocks_loop] in H. cbn [queue_room_a queue_room_b].
      inversion Hq as [|? ? Hw Hq']; subst. simpl in Hw. destruct Hw as [Ha Hb].
      pose proof (find_longest_match_within a b alo ahi blo bhi Ha) as Hwa.
      pose proof (find_longest_match_within_b a b alo ahi blo bhi Hb) as Hwb.
      destruct (Difflib.find_longest_match a b alo ahi blo bhi) as [[i j] k].
      simpl in Hwa, Hwb. destruct (k =? 0) eqn:Ek.
      * apply IH in H; [lia | exact Hq'].
      * destruct ((alo <? i) && (blo <? j)) eqn:E1;
          destruct ((i + k <? ahi) && (j + k <? bhi)) eqn:E2;
          apply IH in H;
          try (rewrite sizes_app in H; cbn [sizes queue_room_a queue_room_b] in H;
               lia);
          repeat (constructor; [simpl; lia|]); exact Hq'.
Qed.

(** The matched characters are at most the characters of either string. *)
Lemma matches_le (a b : list ascii) :
  Difflib.matches a b <= List.length a /\ Difflib.matches a b <= List.length b.
Proof.
  unfold Difflib.matches.
  assert (Hfold : forall blocks n,
            fold_left (fun acc (x : Difflib.Match) => acc + snd x) blocks n
            = n + sizes blocks).
  { induction blocks as [|[[i j] k] blocks IHb]; intros n; simpl; [lia|].
    rewrite IHb. lia. }
  rewrite Hfold. simpl.
  destruct (get_matching_blocks_answers a b) as (blocks & Hloop & ->).
  apply blocks_loop_sizes in Hloop.
  - simpl in Hloop. lia.
  - repeat constructor; simpl; lia.
Qed.

Lemma ratio_le_1 (a b : string) : (Difflib.ratio a b <= 1)%Q.
Proof.
  unfold Difflib.ratio, Difflib.calculate_ratio.
  pose proof (matches_le (list_ascii_of_string a) (list_ascii_of_string b))
    as [Ha Hb].
  destruct (List.length (list_ascii_of_string a)
            + List.length (list_ascii_of_string b)) as [|n] eqn:E.
  - apply Qle_refl.
  - apply float_div_le_1; lia.
Qed.

(** X12. Every score of step 3 lies between 0 and 1.  With a threshold
    above 1 step 3 therefore matches nothing: a record is returned only
    for a key that equals the normalised name, is in it or holds it. *)
Theorem threshold_above_one_disables_similarity (name : string)
    (threshold : Q) (g g' : globals) (record : entry) :
  (1 < threshold)%Q ->
  fuzzy_match_ingredient name threshold g = (inr (Some record), g') ->
  (forall key, (0 <= Difflib.ratio (PyStr.strip (PyStr.lower name)) key)%Q
               /\ (Difflib.ratio (PyStr.strip (PyStr.lower name)) key <= 1)%Q)
  /\ exists key,
       In (key, record) (INGREDIENT_LOOKUP g)
       /\ (key = PyStr.strip (PyStr.lower name)
           \/ PyStr.contains (PyStr.strip (PyStr.lower name)) key = true
           \/ PyStr.contains key (PyStr.strip (PyStr.lower name)) = true).
Proof.
  intros Hth. run_match. intros H. split.
  - intros key. split; [apply ratio_nonneg | apply ratio_le_1].
  - destruct (Dict.get _ _) as [r|] eqn:E1.
    + inversion H; subst. eexists. split; [eapply get_In; eauto | now left].
    + destruct (first_containing _ _) as [r|] eqn:E2.
      * inversion H; subst.
        destruct (first_containing_hit _ _ _ E2) as (key & Hin & Hc).
        exists key. split; [exact Hin|]. apply orb_true_iff in Hc. tauto.
      * exfalso. unfold best_match in H.
        destruct (best_scan (PyStr.strip (PyStr.lower name))
                    (INGREDIENT_LOOKUP g) (0%Q, None))
          as [[Hres _] | (before & key & r & after & Hit & Hres & _)];
          cbv zeta in Hres; rewrite Hres in H.
        -- destruct (Qle_bool threshold 0); discriminate.
        -- destruct (Qle_bool threshold _) eqn:E; [|discriminate].
           apply Qle_bool_iff in E.
           apply (Qlt_not_le _ _ Hth). eapply Qle_trans; [exact E|].
           apply ratio_le_1.
Qed.

(** * The check on the name of an uploaded file *)

Lemma contains_dot_cons (c : ascii) (s : string) :
  PyStr.contains (String c s) "." = Ascii.eqb c "." || PyStr.contains s ".".
Proof.
  rewrite contains_unfold. cbn [String.prefix].
  destruct (ascii_dec "." c) as [<- | Hne].
  - simpl. now destruct s.
  - destruct (Ascii.eqb c ".") eqn:E; [|reflexivity].
    apply Ascii.eqb_eq in E. congruence.
Qed.

(** What [rsplit(".", 1)] returns: the name alone when it has no dot,
    and otherwise the two parts around its last dot. *)
Lemma rsplit_dot_spec (s : string) :
  (PyStr.contains s "." = false /\ rsplit_dot s = [s])
  \/ (PyStr.contains s "." = true
      /\ exists stem ext,
           rsplit_dot s = [stem; ext]
           /\ s = (stem ++ "." ++ ext)%string
           /\ PyStr.contains ext "." = false).
Proof.
  induction s as [|c s IH]; [left; split; reflexivity|].
  rewrite contains_dot_cons. cbn [rsplit_dot].
  destruct IH as [[Hno ->] | (Hyes & stem & ext & -> & Hs & Hext)].
  - rewrite Hno, orb_false_r. destruct (Ascii.eqb c ".") eqn:E.
    + right. split; [reflexivity|]. apply Ascii.eqb_eq in E. subst c.
      exists EmptyString, s. repeat split. exact Hno.
    + left. split; reflexivity.
  - right. rewrite Hyes, orb_true_r. split; [reflexivity|].
    exists (String c stem), ext. split; [reflexivity|]. split; [|exact Hext].
    rewrite Hs. reflexivity.
Qed.

Lemma rsplit_dot_app (stem ext : string) :
  PyStr.contains ext "." = false ->
  rsplit_dot (stem ++ "." ++ ext) = [stem; ext].
Proof.
  intros Hext. induction stem as [|c stem IH]; simpl.
  - destruct (rsplit_dot_spec ext) as [[_ ->] | [Hyes _]]; [reflexivity|].
    congruence.
  - simpl in IH. now rewrite IH.
Qed.

(** X13. A file name is allowed exactly when it has a dot and the text
    after its last dot is, in any mix of cases, one of [png], [jpg],
    [jpeg], [webp]: nothing before the last dot is looked at, and a
    name without a dot is refused. *)
Theorem allowed_file_iff (filename : string) :
  _allowed_file filename = true
  <-> exists stem ext,
        filename = (stem ++ "." ++ ext)%string
        /\ PyStr.contains ext "." = false
        /\ In (PyStr.lower ext) ALLOWED_EXTENSIONS.
Proof.
  unfold _allowed_file. split.
  - intros H. apply andb_prop in H. destruct H as [Hdot Hext].
    destruct (rsplit_dot_spec filename)
      as [[Hno _] | (_ & stem & ext & Hsplit & Hname & Hdotless)];
      [congruence|].
    rewrite Hsplit in Hext. cbn [nth_error] in Hext.
    exists stem, ext. repeat split; auto.
    apply existsb_exists in Hext. destruct Hext as (x & Hx & Heq).
    apply String.eqb_eq in Heq. now subst.
  - intros (stem & ext & -> & Hdotless & Hin).
    rewrite (rsplit_dot_app stem ext Hdotless). cbn [nth_error].
    apply andb_true_intro. split.
    + apply contains_iff. now exists stem, ext.
    + apply existsb_exists. exists (PyStr.lower ext).
      split; [exact Hin | apply String.eqb_refl].
Qed.

Lemma eqb_dot_lower_char (c : ascii) :
  Ascii.eqb (PyStr.lower_char c) "." = Ascii.eqb c ".".
Proof. destruct c as [[] [] [] [] [] [] [] []]; reflexivity. Qed.

Lemma contains_dot_lower (s : string) :
  PyStr.contains (PyStr.lower s) "." = PyStr.contains s ".".
Proof.
  induction s as [|c s IH]; [reflexivity|].
  cbn [PyStr.lower]. now rewrite !contains_dot_cons, eqb_dot_lower_char, IH.
Qed.

Lemma rsplit_dot_lower (s : string) :
  rsplit_dot (PyStr.lower s) = map PyStr.lower (rsplit_dot s).
Proof.
  induction s as [|c s IH]; [reflexivity|].
  cbn [PyStr.lower rsplit_dot]. rewrite IH, eqb_dot_lower_char.
  destruct (rsplit_dot_spec s) as [[_ ->] | (_ & stem & ext & -> & _)].
  - simpl. now destruct (Ascii.eqb c ".").
  - reflexivity.
Qed.

(** X14. The verdict on a file name does not depend on the case of its
    letters. *)
Theorem allowed_file_ignores_case (filename : string) :
  _allowed_file (PyStr.lower filename) = _allowed_file filename.
Proof.
  unfold _allowed_file.
  rewrite contains_dot_lower, rsplit_dot_lower, nth_error_map.
  destruct (nth_error (rsplit_dot filename) 1) as [ext|]; simpl;
    [|reflexivity].
  now rewrite lower_idem.
Qed.

(** * The prompt of the second pass *)

Lemma str_app_assoc (a b c : string) :
  ((a ++ b) ++ c = a ++ (b ++ c))%string.
Proof. induction a as [|x a IH]; simpl; [reflexivity | now rewrite IH]. Qed.

Lemma str_app_nil_r (a : string) : (a ++ "")%string = a.
Proof. induction a as [|x a IH]; simpl; [reflexivity | now rewrite IH]. Qed.

Lemma contains_self (s : string) : PyStr.contains s s = true.
Proof. apply contains_iff. exists "", "". simpl. now rewrite str_app_nil_r. Qed.

Lemma contains_app_l (a b x : string) :
  PyStr.contains a x = true -> PyStr.contains (a ++ b) x = true.
Proof.
  rewrite !contains_iff. intros (pre & post & ->).
  exists pre, (post ++ b)%string. now rewrite !str_app_assoc.
Qed.

Lemma contains_app_r (a b x : string) :
  PyStr.contains b x = true -> PyStr.contains (a ++ b) x = true.
Proof.
  rewrite !contains_iff. intros (pre & post & ->).
  exists (a ++ pre)%string, post. now rewrite !str_app_assoc.
Qed.

(** Every name joined is in the joined text. *)
Lemma join_comma_contains (names : list string) (name : string) :
  In name names -> PyStr.contains (join_comma names) name = true.
Proof.
  unfold join_comma. induction names as [|x names IH]; [intros []|].
  intros [-> | Hin]; cbn [String.concat].
  - destruct names; [apply contains_self|].
    apply contains_app_l, contains_self.
  - destruct names as [|y names]; [destruct Hin|].
    apply contains_app_r, contains_app_r, IH, Hin.
Qed.

(** The record lacks one of the fields of a line of the knowledge
    block. *)
Lemma knowledge_line_raises_iff (item : entry) :
  (exists x, knowledge_line item = inl x)
  <-> exists field, In field KNOWLEDGE_FIELDS /\ Dict.get item field = None.
Proof.
  unfold knowledge_line, Dict.getitem, KNOWLEDGE_FIELDS. split.
  - intros [x H].
    destruct (Dict.get item "ingredient") eqn:E1;
      [|exists "ingredient"; split; [simpl; tauto | exact E1]].
    destruct (Dict.get item "category") eqn:E2;
      [|exists "category"; split; [simpl; tauto | exact E2]].
    destruct (Dict.get item "effect_summary") eqn:E3;
      [|exists "effect_summary"; split; [simpl; tauto | exact E3]].
    destruct (Dict.get item "health_effect") eqn:E4;
      [discriminate | exists "health_effect"; split; [simpl; tauto | exact E4]].
  - intros (field & Hin & Hnone).
    destruct (Dict.get item "ingredient") eqn:E1; [|eauto].
    destruct (Dict.get item "category") eqn:E2; [|eauto].
    destruct (Dict.get item "effect_summary") eqn:E3; [|eauto].
    destruct (Dict.get item "health_effect") eqn:E4; [|eauto].
    simpl in Hin. destruct Hin as [<-|[<-|[<-|[<-|[]]]]]; congruence.
Qed.


Lemma knowledge_lines_raises_iff (items : list entry) :
  forall knowledge_block,
    (exists x, knowledge_lines items knowledge_block = inl x)
    <-> exists item field, In item items /\ In field KNOWLEDGE_FIELDS
                           /\ Dict.get item field = None.
Proof.
  induction items as [|item items IH]; intros kb; cbn [knowledge_lines].
  - split; [intros [x H]; discriminate | intros (i & f & [] & _)].
  - destruct (knowledge_line item) as [x|line] eqn:E.
    + split; [|eauto]. intros _.
      destruct (proj1 (knowledge_line_raises_iff item) (ex_intro _ x E))
        as (field & Hf & Hnone).
      exists item, field. repeat split; auto. now left.
    + rewrite IH. split.
      * intros (i & f & Hi & H). exists i, f. split; [now right | exact H].
      * intros (i & f & [Heq | Hi] & Hf & Hnone).
        -- subst i.
           destruct (proj2 (knowledge_line_raises_iff item)
                       (ex_intro _ f (conj Hf Hnone))) as [x Hx]. congruence.
        -- now exists i, f.
Qed.



(** A line of the knowledge block shows the four fields of its record. *)
Lemma knowledge_line_mentions (item : entry) (line : string) :
  knowledge_line item = inr line ->
  forall field, In field KNOWLEDGE_FIELDS ->
    exists v, Dict.get item field = Some v
              /\ PyStr.contains line (str_of_value v) = true.
Proof.
  unfold knowledge_line, Dict.getitem, KNOWLEDGE_FIELDS.
  destruct (Dict.get item "ingredient") as [a|] eqn:E1; [|discriminate].
  destruct (Dict.get item "category") as [b|] eqn:E2; [|discriminate].
  destruct (Dict.get item "effect_summary") as [c|] eqn:E3; [|discriminate].
  destruct (Dict.get item "health_effect") as [d|] eqn:E4; [|discriminate].
  intros H.
  assert (Hline : line
                  = ("- **" ++ str_of_value a
                     ++ "** | Category: " ++ str_of_value b
                     ++ " | Effect: " ++ str_of_value c
                     ++ " | Detail: " ++ str_of_value d ++ nl)%string)
    by congruence.
  rewrite Hline. clear H Hline.
  intros field [<-|[<-|[<-|[<-|[]]]]]; eexists; (split; [eassumption|]).
  - apply contains_app_r, contains_app_l, contains_self.
  - do 3 apply contains_app_r. apply contains_app_l, contains_self.
  - do 5 apply contains_app_r. apply contains_app_l, contains_self.
  - do 7 apply contains_app_r. apply contains_app_l, contains_self.
Qed.

Lemma knowledge_lines_mentions (items : list entry) :
  forall knowledge_block block,
    knowledge_lines items knowledge_block = inr block ->
    (forall x, PyStr.contains knowledge_block x = true ->
               PyStr.contains block x = true)
    /\ (forall item field, In item items -> In field KNOWLEDGE_FIELDS ->
          exists v, Dict.get item field = Some v
                    /\ PyStr.contains block (str_of_value v) = true).
Proof.
  induction items as [|item items IH]; intros kb block; cbn [knowledge_lines].
  - intros H; inversion H; subst. split; [auto | intros i f []].
  - destruct (knowledge_line item) as [x|line] eqn:E; [discriminate|].
    intros H. destruct (IH _ _ H) as [Hkeep Hitems]. split.
    + intros x Hx. apply Hkeep, contains_app_l, Hx.
    + intros i f [<- | Hi] Hf; [|now apply Hitems].
      destruct (knowledge_line_mentions _ _ E f Hf) as (v & Hv & Hc).
      exists v. split; [exact Hv|]. apply Hkeep, contains_app_r, Hc.
Qed.

(** X16. A prompt that is built shows everything it was given: each
    ingredient name of the label, each unmatched name, and the four
    fields of each matched record occur in it as written. *)
Theorem prompt_mentions_everything
    (ingredients_from_label : list string) (matched_knowledge : list entry)
    (unmatched_names : list string) (prompt : string) :
  build_analysis_prompt ingredients_from_label matched_knowledge
    unmatched_names = inr prompt ->
  (forall name, In name ingredients_from_label ->
     PyStr.contains prompt name = true)
  /\ (forall name, In name unmatched_names ->
        PyStr.contains prompt name = true)
  /\ (forall item field,
        In item matched_knowledge -> In field KNOWLEDGE_FIELDS ->
        exists v, Dict.get item field = Some v
                  /\ PyStr.contains prompt (str_of_value v) = true).
Proof.
  unfold build_analysis_prompt. intros H.
  set (heading := ("## INGREDIENT KNOWLEDGE BASE (verified data):" ++ nl)%string)
    in H.
  assert (Hshape : exists knowledge_block,
            prompt = (PROMPT_OPENING ++ join_comma ingredients_from_label
                      ++ nl ++ nl ++ knowledge_block
                      ++ (if nonempty unmatched_names then
                            ("## INGREDIENTS NOT IN DATABASE (use your general knowledge):"
                             ++ nl ++ join_comma unmatched_names ++ nl ++ nl)
                          else "")
                      ++ PROMPT_INSTRUCTIONS)%string
            /\ forall item field,
                 In item matched_knowledge -> In field KNOWLEDGE_FIELDS ->
                 exists v, Dict.get item field = Some v
                           /\ PyStr.contains knowledge_block (str_of_value v)
                              = true).
  { destruct matched_knowledge as [|item items]; cbn [nonempty] in H.
    - inversion H; subst. exists "". split; [reflexivity | intros i f []].
    - destruct (knowledge_lines (item :: items) heading) as [x|kb] eqn:E;
        [discriminate|].
      inversion H; subst. exists (kb ++ nl)%string. split; [reflexivity|].
      intros i f Hi Hf.
      destruct (proj2 (knowledge_lines_mentions _ _ _ E) i f Hi Hf)
        as (v & Hv & Hc).
      exists v. split; [exact Hv | now apply contains_app_l]. }
  destruct Hshape as (kb & -> & Hkb). clear H. split; [|split].
  - intros name Hin.
    apply contains_app_r, contains_app_l, join_comma_contains, Hin.
  - intros name Hin. destruct unmatched_names as [|u us]; [destruct Hin|].
    cbn [nonempty]. do 5 apply contains_app_r. apply contains_app_l.
    do 2 apply contains_app_r. apply contains_app_l, join_comma_contains, Hin.
  - intros item field Hi Hf. destruct (Hkb item field Hi Hf) as (v & Hv & Hc).
    exists v. split; [exact Hv|].
    do 4 apply contains_app_r. apply contains_app_l, Hc.
Qed.

(** The records hit are records of the table. *)
Lemma hit_from_table (g : globals) (names : list string) (r : entry) :
  In r (hits g names) -> exists key, In (key, r) (INGREDIENT_LOOKUP g).
Proof.
  unfold hits. intros Hr. apply in_flat_map in Hr.
  destruct Hr as (name & _ & Hr).
  destruct (match_of g name) as [r0|] eqn:Hm; [|destruct Hr].
  destruct Hr as [<- | []].
  pose proof (match_of_run name g) as Hrun. rewrite Hm in Hrun.
  eapply fuzzy_match_item; eauto.
Qed.

(** X17. On a table whose records all have an id that is an integer or
    a string, and the four fields of a knowledge line, retrieval
    followed by the building of the prompt never fails, whatever the
    names read off the label. *)
Theorem retrieve_then_prompt (names : list string) (g : globals) :
  records_have_id g = true ->
  (forall key r field, In (key, r) (INGREDIENT_LOOKUP g) ->
     In field KNOWLEDGE_FIELDS -> Dict.get r field <> None) ->
  exists matched_records unmatched_names prompt,
    retrieve_knowledge names g = (inr (matched_records, unmatched_names), g)
    /\ build_analysis_prompt names matched_records unmatched_names
       = inr prompt.
Proof.
  intros Hwf Hfields.
  exists (first_by_id (hits g names)), (filter (no_match g) names).
  rewrite (retrieve_knowledge_run names g Hwf).
  assert (Hok : forall heading x,
            knowledge_lines (first_by_id (hits g names)) heading <> inl x).
  { intros heading x Hx.
    destruct (proj1 (knowledge_lines_raises_iff _ heading) (ex_intro _ x Hx))
      as (item & field & Hi & Hf & Hnone).
    apply first_by_id_incl, hit_from_table in Hi. destruct Hi as [key Hin].
    exact (Hfields key item field Hin Hf Hnone). }
  unfold build_analysis_prompt.
  destruct (nonempty (first_by_id (hits g names))).
  - destruct (knowledge_lines _ _) as [x|kb] eqn:E.
    + exfalso. eapply Hok; eauto.
    + eexists. split; reflexivity.
  - eexists. split; reflexivity.
Qed.

(** * The bag of words *)

Lemma setitem_length (bag : list Q) (idx : nat) (x : Q) :
  List.length (setitem bag idx x) = List.length bag.
Proof.
  revert idx. induction bag as [|y bag IH]; intros [|idx]; simpl; auto.
Qed.

Lemma nth_error_setitem (bag : list Q) (idx i : nat) (x : Q) :
  idx < List.length bag ->
  nth_error (setitem bag idx x) i
  = if i =? idx then Some x else nth_error bag i.
Proof.
  revert idx i. induction bag as [|y bag IH]; intros idx i Hlt; simpl in Hlt;
    [lia|].
  destruct idx as [|idx], i as [|i]; simpl; try reflexivity.
  apply IH. lia.
Qed.

(** The loop writes a 1 at the places of the known words that are among
    the words of the sentence, and leaves every other place alone. *)
Lemma bag_loop_spec (sentence_words : list string) :
  forall words idx bag,
    idx + List.length words <= List.length bag ->
    List.length (bag_loop sentence_words words idx bag) = List.length bag
    /\ forall i,
         nth_error (bag_loop sentence_words words idx bag) i
         = match (if idx <=? i then nth_error words (i - idx) else None) with
           | Some w =>
               if existsb (String.eqb w) sentence_words then Some 1%Q
               else nth_error bag i
           | None => nth_error bag i
           end.
Proof.
  induction words as [|w words IH]; intros idx bag Hlen; cbn [bag_loop].
  - split; [reflexivity|]. intros i.
    destruct (idx <=? i); [|reflexivity]. now destruct (i - idx).
  - cbn [List.length] in Hlen.
    set (bag' := if existsb (String.eqb w) sentence_words
                 then setitem bag idx 1%Q else bag).
    assert (Hlen' : List.length bag' = List.length bag).
    { unfold bag'. destruct (existsb _ _); [apply setitem_length | reflexivity]. }
    destruct (IH (S idx) bag') as [Hl Hn]; [lia|].
    split; [lia|]. intros i. rewrite Hn.
    assert (Hbag' : forall j, j <> idx -> nth_error bag' j = nth_error bag j).
    { intros j Hj. unfold bag'. destruct (existsb _ _); [|reflexivity].
      rewrite nth_error_setitem by lia.
      destruct (j =? idx) eqn:E; [apply Nat.eqb_eq in E; lia | reflexivity]. }
    destruct (S idx <=? i) eqn:E1.
    + apply Nat.leb_le in E1.
      assert (E2 : (idx <=? i) = true) by (apply Nat.leb_le; lia). rewrite E2.
      replace (i - idx) with (S (i - S idx)) by lia. cbn [nth_error].
      rewrite (Hbag' i) by lia. reflexivity.
    + apply Nat.leb_gt in E1. destruct (idx <=? i) eqn:E2.
      * apply Nat.leb_le in E2. assert (i = idx) by lia. subst i.
        rewrite Nat.sub_diag. cbn [nth_error]. unfold bag'.
        destruct (existsb _ _); [|reflexivity].
        rewrite nth_error_setitem by lia. now rewrite Nat.eqb_refl.
      * apply Nat.leb_gt in E2. apply Hbag'. lia.
Qed.

Lemma existsb_eqb_In (w : string) (l : list string) :
  existsb (String.eqb w) l = true <-> In w l.
Proof.
  rewrite existsb_exists. split.
  - intros (x & Hx & E). apply String.eqb_eq in E. now subst.
  - intros H. exists w. split; [exact H | apply String.eqb_refl].
Qed.

(** X18. The bag has one entry for each known word, in the order of the
    known words; the entry is 1 when the known word, as it stands, is
    the stem of a token of the sentence, and 0 otherwise. *)
Theorem bag_of_words_entries (stemmer_stem : string -> string)
    (tokenized_sentence words : list string) :
  List.length (bag_of_words stemmer_stem tokenized_sentence words)
  = List.length words
  /\ forall idx w,
       nth_error words idx = Some w ->
       (In w (map (stem stemmer_stem) tokenized_sentence) ->
        nth_error (bag_of_words stemmer_stem tokenized_sentence words) idx
        = Some 1%Q)
       /\ (~ In w (map (stem stemmer_stem) tokenized_sentence) ->
           nth_error (bag_of_words stemmer_stem tokenized_sentence words) idx
           = Some 0%Q).
Proof.
  unfold bag_of_words.
  destruct (bag_loop_spec (map (stem stemmer_stem) tokenized_sentence)
              words 0 (repeat 0%Q (List.length words))) as [Hl Hn].
  { rewrite repeat_length. lia. }
  split; [now rewrite Hl, repeat_length|].
  intros idx w Hw. rewrite Hn. cbn [Nat.leb]. rewrite Nat.sub_0_r, Hw.
  split; intros Hin.
  - apply existsb_eqb_In in Hin. now rewrite Hin.
  - destruct (existsb _ _) eqn:E; [apply existsb_eqb_In in E; contradiction|].
    apply nth_error_repeat. apply nth_error_Some. congruence.
Qed.

Lemma bag_loop_ext (sw1 sw2 : list string) :
  (forall w, existsb (String.eqb w) sw1 = existsb (String.eqb w) sw2) ->
  forall words idx bag,
    bag_loop sw1 words idx bag = bag_loop sw2 words idx bag.
Proof.
  intros Hsame. induction words as [|w words IH]; intros idx bag;
    cbn [bag_loop]; [reflexivity|].
  now rewrite Hsame, IH.
Qed.

(** X19. The bag depends on the sentence only through the set of its
    tokens in lower case: the order of the tokens, their repetitions and
    their case change nothing. *)
Theorem bag_of_words_set_of_tokens (stemmer_stem : string -> string)
    (sentence1 sentence2 words : list string) :
  (forall t, In t (map PyStr.lower sentence1)
             <-> In t (map PyStr.lower sentence2)) ->
  bag_of_words stemmer_stem sentence1 words
  = bag_of_words stemmer_stem sentence2 words.
Proof.
  intros Hsame. unfold bag_of_words. apply bag_loop_ext. intros w.
  assert (Hin : forall s, In w (map (stem stemmer_stem) s)
                          <-> exists t, In t (map PyStr.lower s)
                                        /\ w = stemmer_stem t).
  { intros s. unfold stem. rewrite in_map_iff. split.
    - intros (x & <- & Hx). exists (PyStr.lower x). split; [|reflexivity].
      now apply in_map.
    - intros (t & Ht & ->). apply in_map_iff in Ht.
      destruct Ht as (x & <- & Hx). now exists x. }
  destruct (existsb (String.eqb w) (map (stem stemmer_stem) sentence1)) eqn:E1,
           (existsb (String.eqb w) (map (stem stemmer_stem) sentence2)) eqn:E2;
    try reflexivity.
  - apply existsb_eqb_In, Hin in E1. destruct E1 as (t & Ht & Hw).
    assert (In w (map (stem stemmer_stem) sentence2))
      by (apply Hin; exists t; split; [now apply Hsame | exact Hw]).
    apply existsb_eqb_In in H. congruence.
  - apply existsb_eqb_In, Hin in E2. destruct E2 as (t & Ht & Hw).
    assert (In w (map (stem stemmer_stem) sentence1))
      by (apply Hin; exists t; split; [now apply Hsame | exact Hw]).
    apply existsb_eqb_In in H. congruence.
Qed.

(** * The further properties on the sample knowledge base *)

Lemma loaded_keys_are_the_names_witness :
  load_module sample_data = inr sample_globals
  /\ INGREDIENT_DB sample_globals = sample_data
  /\ List.length (INGREDIENT_LOOKUP sample_globals) <= List.length sample_data.
Proof.
  split; [reflexivity|].
  destruct (loaded_keys_are_the_names sample_data sample_globals eq_refl)
    as (Hdb & _ & Hlen).
  split; [exact Hdb | exact Hlen].
Defined.

Lemma index_key_round_trip_witness :
  load_module sample_data = inr sample_globals
  /\ PyStr.strip (PyStr.lower "citric acid") = "citric acid"
  /\ fuzzy_match_ingredient "citric acid" 2%Q sample_globals
     = (inr (Some (sample_record 4 "Citric Acid")), sample_globals).
Proof.
  split; [reflexivity|].
  apply (index_key_round_trip sample_data sample_globals "citric acid"
           (sample_record 4 "Citric Acid") 2%Q eq_refl).
  simpl. auto.
Defined.

Lemma own_name_is_found_witness :
  fuzzy_match_ingredient " SALT " default_threshold sample_globals
  = (inr (Some (sample_record 5 " SALT ")), sample_globals).
Proof.
  apply (own_name_is_found
           [sample_record 1 "Sugar"; sample_record 2 "Salt";
            sample_record 3 "Acid"; sample_record 4 "Citric Acid"]
           [] (sample_record 5 " SALT ") " SALT " sample_globals
           default_threshold).
  - reflexivity.
  - reflexivity.
  - intros e' [].
Defined.

Lemma match_is_justified_witness :
  exists key,
    In (key, sample_record 1 "Sugar") (INGREDIENT_LOOKUP sample_globals)
    /\ (key = PyStr.strip (PyStr.lower "Suger")
        \/ PyStr.contains (PyStr.strip (PyStr.lower "Suger")) key = true
        \/ PyStr.contains key (PyStr.strip (PyStr.lower "Suger")) = true
        \/ ((0 < Difflib.ratio (PyStr.strip (PyStr.lower "Suger")) key)%Q
            /\ (default_threshold
                <= Difflib.ratio (PyStr.strip (PyStr.lower "Suger")) key)%Q)).
Proof.
  apply (match_is_justified "Suger" default_threshold sample_globals
           sample_globals (sample_record 1 "Sugar")).
  vm_compute. reflexivity.
Defined.

Lemma lower_threshold_keeps_match_witness :
  fuzzy_match_ingredient "Suger" (1 # 2)%Q sample_globals
  = (inr (Some (sample_record 1 "Sugar")), sample_globals).
Proof.
  apply (lower_threshold_keeps_match "Suger" default_threshold (1 # 2)%Q
           sample_globals (sample_record 1 "Sugar")).
  - vm_compute. discriminate.
  - vm_compute. reflexivity.
Defined.


Lemma retrieve_returns_only_what_it_was_given_witness :
  records_have_id sample_globals = true
  /\ exists matched_records unmatched_names,
       retrieve_knowledge ["Sugar"; "Water"] sample_globals
       = (inr (matched_records, unmatched_names), sample_globals)
       /\ forall name, In name unmatched_names -> In name ["Sugar"; "Water"].
Proof.
  split; [reflexivity|].
  destruct (retrieve_returns_only_what_it_was_given
              ["Sugar"; "Water"] sample_globals eq_refl)
    as (m & u & Hrun & _ & Hu).
  exists m, u. split; [exact Hrun | exact Hu].
Defined.

Lemma empty_table_matches_nothing_witness :
  retrieve_knowledge ["Sugar"; ""; "Water"]
    {| INGREDIENT_DB := []; INGREDIENT_LOOKUP := [] |}
  = (inr ([], ["Sugar"; ""; "Water"]),
     {| INGREDIENT_DB := []; INGREDIENT_LOOKUP := [] |}).
Proof.
  apply (proj2 (empty_table_matches_nothing
                  {| INGREDIENT_DB := []; INGREDIENT_LOOKUP := [] |} eq_refl)).
Defined.

Lemma retrieve_of_appended_names_witness :
  records_have_id sample_globals = true
  /\ exists mx ux my uy,
       retrieve_knowledge ["Sugar"; "Water"] sample_globals
       = (inr (mx, ux), sample_globals)
       /\ retrieve_knowledge ["Salt"; "suger"; "qq"] sample_globals
          = (inr (my, uy), sample_globals)
       /\ retrieve_knowledge (["Sugar"; "Water"] ++ ["Salt"; "suger"; "qq"])
            sample_globals
          = (inr (mx ++ filter (fun r => negb (existsb (same_id r) mx)) my,
                  ux ++ uy), sample_globals).
Proof.
  split; [reflexivity|].
  exact (retrieve_of_appended_names ["Sugar"; "Water"] ["Salt"; "suger"; "qq"]
           sample_globals eq_refl).
Defined.

Lemma threshold_above_one_disables_similarity_witness :
  (1 < 2)%Q
  /\ exists key,
       In (key, sample_record 3 "Acid") (INGREDIENT_LOOKUP sample_globals)
       /\ (key = PyStr.strip (PyStr.lower "Citric Acid (E330)")
           \/ PyStr.contains (PyStr.strip (PyStr.lower "Citric Acid (E330)"))
                key = true
           \/ PyStr.contains key
                (PyStr.strip (PyStr.lower "Citric Acid (E330)")) = true).
Proof.
  split; [reflexivity|].
  apply (threshold_above_one_disables_similarity "Citric Acid (E330)" 2%Q
           sample_globals sample_globals (sample_record 3 "Acid")).
  - reflexivity.
  - vm_compute. reflexivity.
Defined.

Lemma prompt_mentions_everything_witness :
  exists prompt,
    build_analysis_prompt ["Sugar"; "Water"] [sample_record 1 "Sugar"]
      ["Water"] = inr prompt
    /\ PyStr.contains prompt "Water" = true.
Proof.
  destruct (build_analysis_prompt ["Sugar"; "Water"] [sample_record 1 "Sugar"]
              ["Water"]) as [x|prompt] eqn:E; [vm_compute in E; discriminate|].
  exists prompt. split; [reflexivity|].
  apply (proj1 (proj2 (prompt_mentions_everything
                         ["Sugar"; "Water"] [sample_record 1 "Sugar"]
                         ["Water"] prompt E))).
  now left.
Defined.

Lemma retrieve_then_prompt_witness :
  exists matched_records unmatched_names prompt,
    retrieve_knowledge ["Sugar"; "Water"; "Citric Acid (E330)"] sample_globals
    = (inr (matched_records, unmatched_names), sample_globals)
    /\ build_analysis_prompt ["Sugar"; "Water"; "Citric Acid (E330)"]
         matched_records unmatched_names = inr prompt.
Proof.
  apply (retrieve_then_prompt ["Sugar"; "Water"; "Citric Acid (E330)"]
           sample_globals).
  - reflexivity.
  - intros key r field [H|[H|[H|[H|[]]]]] Hf; inversion H; subst;
      simpl in Hf; destruct Hf as [<-|[<-|[<-|[<-|[]]]]]; discriminate.
Defined.

Lemma bag_of_words_set_of_tokens_witness :
  bag_of_words (fun word => word) ["Hello"; "how"; "are"; "you"; "hello"]
    ["hi"; "hello"; "I"; "you"; "bye"]
  = bag_of_words (fun word => word) ["YOU"; "are"; "HOW"; "hello"]
      ["hi"; "hello"; "I"; "you"; "bye"].
Proof.
  apply (bag_of_words_set_of_tokens (fun word => word)
           ["Hello"; "how"; "are"; "you"; "hello"]
           ["YOU"; "are"; "HOW"; "hello"]).
  intros t. simpl. tauto.
Defined.

(** X20. The keys of the loaded table stand in the order in which
    [data.json] first shows their normalised names: a later record with
    a name already met takes over the content of the item, not its
    place, and a name met for the first time goes to the end. *)
Theorem loaded_table_order (data : list entry) (g : globals) :
  load_module data = inr g ->
  exists names,
    map entry_key data = map inr names
    /\ Dict.keys (INGREDIENT_LOOKUP g) = fold_left add_key names [].
Proof.
  unfold load_module.
  destruct (build_lookup data []) as [x|table] eqn:Hb; [discriminate|].
  intros H; inversion H; subst. cbn [INGREDIENT_LOOKUP].
  exact (build_lookup_keys data [] table Hb).
Qed.

Lemma loaded_table_order_witness :
  load_module sample_data = inr sample_globals
  /\ exists names,
       map entry_key sample_data = map inr names
       /\ Dict.keys (INGREDIENT_LOOKUP sample_globals)
          = fold_left add_key names [].
Proof.
  split; [reflexivity|].
  exact (loaded_table_order sample_data sample_globals eq_refl).
Defined.

(** * Retrieval over the objects it shares *)

Lemma nth_error_after (old rest : list Heap.object) (k : nat) :
  nth_error (old ++ rest) (List.length old + k) = nth_error rest k.
Proof. induction old as [|o old IH]; simpl; auto. Qed.

Lemma update_after (old rest : list Heap.object) (k : nat) (o : Heap.object) :
  Heap.update (old ++ rest) (List.length old + k) o
  = old ++ Heap.update rest k o.
Proof. induction old as [|x old IH]; simpl; [reflexivity|]. now rewrite IH. Qed.

(** The objects of a call in progress come after those that were
    there. *)
Lemma old_object (s : Heap.state) ml ul il a o :
  nth_error (Heap.objects s) a = Some o ->
  nth_error (Heap.objects (Heap.with_locals s ml ul il)) a = Some o.
Proof.
  intros H. unfold Heap.with_locals. cbn [Heap.objects].
  rewrite nth_error_app1; [exact H|]. apply nth_error_Some. congruence.
Qed.

Lemma old_record (s : Heap.state) ml ul il a :
  Heap.is_record s a = true ->
  Heap.is_record (Heap.with_locals s ml ul il) a = true
  /\ Heap.fields_at (Heap.with_locals s ml ul il) a = Heap.fields_at s a.
Proof.
  unfold Heap.is_record, Heap.fields_at.
  destruct (nth_error (Heap.objects s) a) as [o|] eqn:E; [|discriminate].
  rewrite (old_object _ ml ul il _ _ E). auto.
Qed.

Lemma old_records (s : Heap.state) ml ul il (refs : list Heap.addr) :
  forallb (Heap.is_record s) refs = true ->
  forallb (Heap.is_record (Heap.with_locals s ml ul il)) refs = true
  /\ map (Heap.fields_at (Heap.with_locals s ml ul il)) refs
     = map (Heap.fields_at s) refs.
Proof.
  induction refs as [|a refs IH]; simpl; [auto|].
  intros H. apply andb_prop in H. destruct H as [Ha Hrefs].
  destruct (old_record s ml ul il a Ha) as [-> ->].
  destruct (IH Hrefs) as [-> ->]. auto.
Qed.

Lemma old_items (s : Heap.state) ml ul il (items : Dict.dict Heap.addr) :
  forallb (fun item : string * Heap.addr => Heap.is_record s (snd item))
          items = true ->
  forallb (fun item : string * Heap.addr =>
             Heap.is_record (Heap.with_locals s ml ul il) (snd item))
          items = true
  /\ Heap.deref_items (Heap.with_locals s ml ul il) items
     = Heap.deref_items s items.
Proof.
  induction items as [|[k a] items IH]; simpl; [auto|].
  intros H. apply andb_prop in H. destruct H as [Ha Hitems].
  destruct (old_record s ml ul il a Ha) as [-> ->].
  destruct (IH Hitems) as [-> ->]. auto.
Qed.

(** What a well-formed state holds behind its two names. *)
Lemma well_formed_inv (s : Heap.state) :
  Heap.well_formed s = true ->
  exists db items,
    nth_error (Heap.objects s) (Heap.INGREDIENT_DB s)
    = Some (Heap.Records db)
    /\ nth_error (Heap.objects s) (Heap.INGREDIENT_LOOKUP s)
       = Some (Heap.Table items)
    /\ forallb (Heap.is_record s) db = true
    /\ forallb (fun item : string * Heap.addr => Heap.is_record s (snd item))
               items = true.
Proof.
  unfold Heap.well_formed.
  destruct (nth_error (Heap.objects s) (Heap.INGREDIENT_DB s))
    as [[| db | | |]|]; try discriminate.
  destruct (nth_error (Heap.objects s) (Heap.INGREDIENT_LOOKUP s))
    as [[| | items | |]|]; try discriminate.
  intros H. apply andb_prop in H. destruct H as [Hdb Hitems].
  exists db, items. auto.
Qed.

(** The objects of a call in progress change neither the
    well-formedness of the state nor what the globals are. *)
Lemma with_locals_well_formed (s : Heap.state) ml ul il :
  Heap.well_formed s = true ->
  Heap.well_formed (Heap.with_locals s ml ul il) = true
  /\ Heap.view (Heap.with_locals s ml ul il) = Heap.view s.
Proof.
  intros Hwf.
  destruct (well_formed_inv s Hwf) as (db & items & Hdb & Hitems & Hr & Hi).
  pose proof (old_object s ml ul il _ _ Hdb) as Hdb'.
  pose proof (old_object s ml ul il _ _ Hitems) as Hitems'.
  destruct (old_records s ml ul il db Hr) as [Hr1 Hr2].
  destruct (old_items s ml ul il items Hi) as [Hi1 Hi2].
  unfold Heap.well_formed, Heap.view.
  change (Heap.INGREDIENT_DB (Heap.with_locals s ml ul il))
    with (Heap.INGREDIENT_DB s).
  change (Heap.INGREDIENT_LOOKUP (Heap.with_locals s ml ul il))
    with (Heap.INGREDIENT_LOOKUP s).
  rewrite Hdb', Hitems', Hdb, Hitems, Hr1, Hi1, Hr2, Hi2. auto.
Qed.

Lemma view_lookup (s : Heap.state) (items : Dict.dict Heap.addr) :
  nth_error (Heap.objects s) (Heap.INGREDIENT_LOOKUP s)
  = Some (Heap.Table items) ->
  INGREDIENT_LOOKUP (Heap.view s) = Heap.deref_items s items.
Proof. intros H. unfold Heap.view. cbn [INGREDIENT_LOOKUP]. now rewrite H. Qed.

(** The three objects of a call in progress. *)
Lemma locals_objects (s : Heap.state) ml ul il :
  nth_error (Heap.objects (Heap.with_locals s ml ul il))
            (List.length (Heap.objects s))
  = Some (Heap.Records ml)
  /\ nth_error (Heap.objects (Heap.with_locals s ml ul il))
               (S (List.length (Heap.objects s)))
     = Some (Heap.Names ul)
  /\ nth_error (Heap.objects (Heap.with_locals s ml ul il))
               (S (S (List.length (Heap.objects s))))
     = Some (Heap.Ids il).
Proof.
  unfold Heap.with_locals. cbn [Heap.objects].
  pose proof (nth_error_after (Heap.objects s)
                [Heap.Records ml; Heap.Names ul; Heap.Ids il]) as H.
  split; [|split].
  - specialize (H 0). now rewrite Nat.add_0_r in H.
  - specialize (H 1). now rewrite Nat.add_1_r in H.
  - specialize (H 2).
    replace (List.length (Heap.objects s) + 2)
      with (S (S (List.length (Heap.objects s)))) in H by lia.
    exact H.
Qed.

Lemma store_local (s : Heap.state) ml ul il (k : nat) (o : Heap.object) :
  k < 3 ->
  Heap.store (List.length (Heap.objects s) + k) o (Heap.with_locals s ml ul il)
  = Some (inr tt,
          {| Heap.objects :=
               Heap.objects s
               ++ Heap.update [Heap.Records ml; Heap.Names ul; Heap.Ids il] k o;
             Heap.INGREDIENT_DB := Heap.INGREDIENT_DB s;
             Heap.INGREDIENT_LOOKUP := Heap.INGREDIENT_LOOKUP s |}).
Proof.
  intros Hk. unfold Heap.store, Heap.with_locals.
  cbn [Heap.objects Heap.INGREDIENT_DB Heap.INGREDIENT_LOOKUP].
  rewrite length_app. cbn [List.length].
  destruct (Nat.ltb_spec (List.length (Heap.objects s) + k)
                         (List.length (Heap.objects s) + 3)) as [_|Hge];
    [|lia].
  now rewrite update_after.
Qed.

(** [matched.append(record)]. *)
Lemma append_record_run (s : Heap.state) ml ul il (r : Heap.addr) :
  Heap.append_record (List.length (Heap.objects s)) r
                     (Heap.with_locals s ml ul il)
  = Some (inr tt, Heap.with_locals s (ml ++ [r]) ul il).
Proof.
  unfold Heap.append_record, Heap.load_records, Heap.bind, Heap.load, Heap.ret.
  destruct (locals_objects s ml ul il) as (-> & _).
  pose proof (store_local s ml ul il 0 (Heap.Records (ml ++ [r]))) as H.
  rewrite Nat.add_0_r in H. rewrite H; [reflexivity | lia].
Qed.

(** [unmatched.append(name)]. *)
Lemma append_name_run (s : Heap.state) ml ul il (name : string) :
  Heap.append_name (S (List.length (Heap.objects s))) name
                   (Heap.with_locals s ml ul il)
  = Some (inr tt, Heap.with_locals s ml (ul ++ [name]) il).
Proof.
  unfold Heap.append_name, Heap.load_names, Heap.bind, Heap.load, Heap.ret.
  destruct (locals_objects s ml ul il) as (_ & -> & _).
  pose proof (store_local s ml ul il 1 (Heap.Names (ul ++ [name]))) as H.
  rewrite Nat.add_1_r in H. rewrite H; [reflexivity | lia].
Qed.

(** [record["id"] not in seen_ids]. *)
Lemma set_lacks_run (s : Heap.state) ml ul il (x : value) :
  Heap.set_lacks (S (S (List.length (Heap.objects s)))) x
                 (Heap.with_locals s ml ul il)
  = Some (not_in_set x il, Heap.with_locals s ml ul il).
Proof.
  unfold Heap.set_lacks, Heap.load_ids, Heap.bind, Heap.load, Heap.ret,
    Heap.lift.
  destruct (locals_objects s ml ul il) as (_ & _ & ->). reflexivity.
Qed.

(** [seen_ids.add(x)] for an [x] that the set lacks. *)
Lemma set_add_run (s : Heap.state) ml ul il (x : value) :
  not_in_set x il = inr true ->
  Heap.set_add (S (S (List.length (Heap.objects s)))) x
               (Heap.with_locals s ml ul il)
  = Some (inr tt, Heap.with_locals s ml ul (x :: il)).
Proof.
  intros Hnew.
  unfold Heap.set_add, Heap.load_ids, Heap.bind, Heap.load, Heap.ret,
    Heap.lift.
  destruct (locals_objects s ml ul il) as (_ & _ & ->). rewrite Hnew.
  pose proof (store_local s ml ul il 2 (Heap.Ids (x :: il))) as H.
  replace (List.length (Heap.objects s) + 2)
    with (S (S (List.length (Heap.objects s)))) in H by lia.
  rewrite H; [reflexivity | lia].
Qed.

Lemma load_record_run (s : Heap.state) (a : Heap.addr) :
  Heap.is_record s a = true ->
  Heap.load_record a s = Some (inr (Heap.fields_at s a), s).
Proof.
  unfold Heap.is_record, Heap.fields_at, Heap.load_record, Heap.bind,
    Heap.load, Heap.ret.
  destruct (nth_error (Heap.objects s) a) as [[fields| | | |]|];
    try discriminate.
  reflexivity.
Qed.

(** The table of references and the table of records give the same
    answers, record for reference. *)
Lemma get_deref (s : Heap.state) (items : Dict.dict Heap.addr) (k : string) :
  Dict.get (Heap.deref_items s items) k
  = option_map (Heap.fields_at s) (Dict.get items k).
Proof.
  induction items as [|[k' a] items IH]; simpl; [reflexivity|].
  destruct (String.eqb k' k); auto.
Qed.

Lemma first_containing_deref (s : Heap.state) (items : Dict.dict Heap.addr)
    (normalised : string) :
  first_containing normalised (Heap.deref_items s items)
  = option_map (Heap.fields_at s) (Heap.first_containing normalised items).
Proof.
  induction items as [|[k a] items IH]; simpl; [reflexivity|].
  destruct (_ || _); auto.
Qed.

Lemma best_step_deref (s : Heap.state) (normalised : string)
    (best : Q * option Heap.addr) (k : string) (a : Heap.addr) :
  best_step normalised (fst best, option_map (Heap.fields_at s) (snd best))
            (k, Heap.fields_at s a)
  = (fst (Heap.best_step normalised best (k, a)),
     option_map (Heap.fields_at s)
                (snd (Heap.best_step normalised best (k, a)))).
Proof.
  unfold best_step, Heap.best_step. cbn [fst snd].
  destruct (Qgt_bool _ _); reflexivity.
Qed.

Lemma best_match_deref (s : Heap.state) (normalised : string)
    (items : Dict.dict Heap.addr) :
  forall best,
    fold_left (best_step normalised) (Heap.deref_items s items)
              (fst best, option_map (Heap.fields_at s) (snd best))
    = (fst (fold_left (Heap.best_step normalised) items best),
       option_map (Heap.fields_at s)
                  (snd (fold_left (Heap.best_step normalised) items best))).
Proof.
  induction items as [|[k a] items IH]; intros best;
    cbn [Heap.deref_items map fold_left fst snd]; [reflexivity|].
  rewrite best_step_deref. apply IH.
Qed.

Lemma heap_first_containing_item (normalised : string)
    (items : Dict.dict Heap.addr) (a : Heap.addr) :
  Heap.first_containing normalised items = Some a ->
  exists key, In (key, a) items.
Proof.
  induction items as [|[k r] items IH]; simpl; [discriminate|].
  destruct (_ || _).
  - intros H; inversion H; subst. exists k; now left.
  - intros H. destruct (IH H) as [key Hk]. exists key; now right.
Qed.

Lemma heap_best_match_item (normalised : string)
    (items : Dict.dict Heap.addr) (a : Heap.addr) :
  forall best,
    snd (fold_left (Heap.best_step normalised) items best) = Some a ->
    snd best = Some a \/ exists key, In (key, a) items.
Proof.
  induction items as [|[k r] items IH]; intros best; cbn [fold_left];
    [auto|].
  intros H. destruct (IH _ H) as [Hb | [key Hk]].
  - unfold Heap.best_step in Hb. destruct (Qgt_bool _ _); cbn [snd] in Hb.
    + inversion Hb; subst. right. exists k. now left.
    + now left.
  - right. exists key. now right.
Qed.

(** [fuzzy_match_ingredient] changes nothing and returns the reference
    to the record that the computation on values returns. *)
Lemma heap_fuzzy_match_run (name : string) (threshold : Q)
    (s1 s0 : Heap.state) (items : Dict.dict Heap.addr) (g : globals) :
  nth_error (Heap.objects s1) (Heap.INGREDIENT_LOOKUP s1)
  = Some (Heap.Table items) ->
  INGREDIENT_LOOKUP g = Heap.deref_items s0 items ->
  exists r,
    Heap.fuzzy_match_ingredient name threshold s1 = Some (inr r, s1)
    /\ fuzzy_match_ingredient name threshold g
       = (inr (option_map (Heap.fields_at s0) r), g)
    /\ forall a, r = Some a -> exists key, In (key, a) items.
Proof.
  intros Htable Hg.
  assert (Hload : Heap.load_table (Heap.INGREDIENT_LOOKUP s1) s1
                  = Some (inr items, s1)).
  { unfold Heap.load_table, Heap.bind, Heap.load, Heap.ret.
    now rewrite Htable. }
  unfold Heap.fuzzy_match_ingredient, Heap.bind, Heap.read_INGREDIENT_LOOKUP.
  rewrite Hload. run_match. rewrite Hg, get_deref.
  set (normalised := PyStr.strip (PyStr.lower name)).
  destruct (Dict.get items normalised) as [a|] eqn:E1; cbn [option_map].
  - exists (Some a). split; [reflexivity|]. split; [reflexivity|].
    intros a' Ha'. inversion Ha'; subst. exists normalised.
    now apply get_In.
  - rewrite Hload, Hg, first_containing_deref.
    destruct (Heap.first_containing normalised items) as [a|] eqn:E2;
      cbn [option_map].
    + exists (Some a). split; [reflexivity|]. split; [reflexivity|].
      intros a' Ha'. inversion Ha'; subst.
      now apply (heap_first_containing_item normalised).
    + rewrite Hload, Hg. unfold best_match, Heap.best_match.
      pose proof (best_match_deref s0 normalised items (0%Q, None)) as Hb.
      cbn [fst snd option_map] in Hb. rewrite Hb.
      pose proof (heap_best_match_item normalised items) as Hitem.
      destruct (fold_left (Heap.best_step normalised) items (0%Q, None))
        as [best_score best_record] eqn:E3.
      cbn [fst snd].
      destruct (Qle_bool threshold best_score).
      * exists best_record. split; [reflexivity|]. split; [reflexivity|].
        intros a Ha. subst best_record.
        destruct (Hitem a (0%Q, None)) as [Hnone|Hin]; [now rewrite E3 | | exact Hin].
        discriminate.
      * exists None. split; [reflexivity|]. split; [reflexivity|].
        discriminate.
Qed.

(** One pass of the loop: it changes the three objects of the call and
    no other, as the pass on values changes the local variables. *)
Lemma heap_retrieve_step_run (s : Heap.state) (name : string) ml ul il :
  Heap.well_formed s = true ->
  forallb (Heap.is_record s) ml = true ->
  exists outcome,
    Heap.retrieve_step (List.length (Heap.objects s))
                       (S (List.length (Heap.objects s)))
                       (S (S (List.length (Heap.objects s))))
                       name (Heap.with_locals s ml ul il)
    = Some outcome
    /\ match retrieve_step {| matched := map (Heap.fields_at s) ml;
                              unmatched := ul;
                              seen_ids := il |} name (Heap.view s) with
       | (inl x, _) => outcome = (inl x, Heap.with_locals s ml ul il)
       | (inr l', g) =>
           g = Heap.view s
           /\ exists ml',
                forallb (Heap.is_record s) ml' = true
                /\ matched l' = map (Heap.fields_at s) ml'
                /\ outcome
                   = (inr tt,
                      Heap.with_locals s ml' (unmatched l') (seen_ids l'))
       end.
Proof.
  intros Hwf Hml.
  destruct (well_formed_inv s Hwf) as (db & items & _ & Hitems & _ & Hrec).
  destruct (heap_fuzzy_match_run name default_threshold
              (Heap.with_locals s ml ul il) s items (Heap.view s)
              (old_object s ml ul il _ _ Hitems) (view_lookup s items Hitems))
    as (r & Hheap & Hpure & Hin).
  assert (Hm : match_of (Heap.view s) name = option_map (Heap.fields_at s) r).
  { unfold match_of. now rewrite Hpure. }
  rewrite retrieve_step_run, Hm. cbn [matched unmatched seen_ids].
  unfold Heap.retrieve_step. unfold Heap.bind at 1. rewrite Hheap.
  destruct r as [a|]; cbn [option_map].
  - assert (Ha : Heap.is_record s a = true).
    { destruct (Hin a eq_refl) as [key Hkey].
      rewrite forallb_forall in Hrec. exact (Hrec _ Hkey). }
    destruct (old_record s ml ul il a Ha) as [Ha1 Ha2].
    unfold Heap.bind at 1. rewrite (load_record_run _ a Ha1), Ha2.
    destruct (Dict.truthy (Heap.fields_at s a)).
    + unfold Heap.bind at 1, Heap.lift at 1.
      destruct (Dict.getitem (Heap.fields_at s a) "id") as [x|id] eqn:Hid.
      * eexists. split; reflexivity.
      * unfold Heap.bind at 1. rewrite set_lacks_run.
        destruct (not_in_set id il) as [x|[|]] eqn:Hnew.
        -- eexists. split; reflexivity.
        -- unfold Heap.bind at 1. rewrite append_record_run.
           destruct (old_record s (ml ++ [a]) ul il a Ha) as [Hb1 Hb2].
           unfold Heap.bind at 1. rewrite (load_record_run _ a Hb1), Hb2.
           unfold Heap.bind at 1, Heap.lift at 1. rewrite Hid.
           rewrite (set_add_run _ _ _ _ _ Hnew).
           eexists. split; [reflexivity|]. split; [reflexivity|].
           exists (ml ++ [a]). split; [|split].
           ++ rewrite forallb_app, Hml. simpl. now rewrite Ha.
           ++ now rewrite map_app.
           ++ reflexivity.
        -- eexists. split; [reflexivity|]. split; [reflexivity|].
           exists ml. auto.
    + eexists. split; [reflexivity|]. split; [reflexivity|].
      exists ml. auto.
  - rewrite append_name_run.
    eexists. split; [reflexivity|]. split; [reflexivity|].
    exists ml. auto.
Qed.

(** The loop: whatever the names, it ends, with the objects that were
    there before the call as they were. *)
Lemma heap_retrieve_loop_run (s : Heap.state) (names : list string) :
  Heap.well_formed s = true ->
  forall ml ul il,
    forallb (Heap.is_record s) ml = true ->
    exists outcome ml' ul' il',
      Heap.retrieve_loop (List.length (Heap.objects s))
                         (S (List.length (Heap.objects s)))
                         (S (S (List.length (Heap.objects s))))
                         names (Heap.with_locals s ml ul il)
      = Some (outcome, Heap.with_locals s ml' ul' il')
      /\ forallb (Heap.is_record s) ml' = true
      /\ match fst (retrieve_loop {| matched := map (Heap.fields_at s) ml;
                                     unmatched := ul;
                                     seen_ids := il |} names (Heap.view s)) with
         | inl x => outcome = inl x
         | inr l' =>
             outcome = inr tt
             /\ matched l' = map (Heap.fields_at s) ml'
             /\ unmatched l' = ul'
         end.
Proof.
  intros Hwf. induction names as [|name names IH]; intros ml ul il Hml.
  - exists (inr tt), ml, ul, il. simpl. auto.
  - destruct (heap_retrieve_step_run s name ml ul il Hwf Hml)
      as (outcome & Hstep & Hpure).
    cbn [Heap.retrieve_loop retrieve_loop]. unfold Heap.bind at 1, bind at 1.
    rewrite Hstep.
    destruct (retrieve_step _ name (Heap.view s)) as [[x|l'] g].
    + subst outcome. exists (inl x), ml, ul, il. simpl. auto.
    + destruct Hpure as (-> & ml' & Hml' & Hmatched & ->).
      destruct (IH ml' (unmatched l') (seen_ids l') Hml')
        as (outcome & ml2 & ul2 & il2 & Hloop & Hml2 & Hrest).
      exists outcome, ml2, ul2, il2. split; [exact Hloop|].
      split; [exact Hml2|].
      rewrite <- Hmatched in Hrest. destruct l'; exact Hrest.
Qed.

(** [retrieve_knowledge] on a well-formed state. *)
Lemma heap_retrieve_knowledge_run (s : Heap.state) (names : list string) :
  Heap.well_formed s = true ->
  exists outcome ml ul il,
    Heap.retrieve_knowledge names s
    = Some (outcome, Heap.with_locals s ml ul il)
    /\ forallb (Heap.is_record s) ml = true
    /\ (forall matched_list unmatched_list,
          outcome = inr (matched_list, unmatched_list) ->
          matched_list = List.length (Heap.objects s)
          /\ unmatched_list = S (List.length (Heap.objects s)))
    /\ Heap.returned (Heap.with_locals s ml ul il) outcome
       = fst (retrieve_knowledge names (Heap.view s)).
Proof.
  intros Hwf.
  destruct (heap_retrieve_loop_run s names Hwf [] [] [] eq_refl)
    as (outcome & ml & ul & il & Hloop & Hml & Hpure).
  unfold Heap.retrieve_knowledge, Heap.bind, Heap.new.
  cbn [Heap.objects Heap.INGREDIENT_DB Heap.INGREDIENT_LOOKUP].
  rewrite !length_app. cbn [List.length]. rewrite !Nat.add_1_r.
  rewrite <- !app_assoc. cbn [app].
  change {| Heap.objects :=
              Heap.objects s ++ [Heap.Records []; Heap.Names []; Heap.Ids []];
            Heap.INGREDIENT_DB := Heap.INGREDIENT_DB s;
            Heap.INGREDIENT_LOOKUP := Heap.INGREDIENT_LOOKUP s |}
    with (Heap.with_locals s [] [] []).
  rewrite Hloop.
  unfold retrieve_knowledge, bind. cbn [map] in Hpure.
  destruct (retrieve_loop _ names (Heap.view s)) as [[x|l'] g];
    cbn [fst] in Hpure.
  - subst outcome. exists (inl x), ml, ul, il.
    split; [reflexivity|]. split; [exact Hml|].
    split; [discriminate | reflexivity].
  - destruct Hpure as (-> & Hmatched & Hunmatched).
    exists (inr (List.length (Heap.objects s),
                 S (List.length (Heap.objects s)))), ml, ul, il.
    split; [reflexivity|]. split; [exact Hml|]. split.
    + intros m u H. inversion H; subst. auto.
    + unfold Heap.returned, ret. cbn [fst].
      destruct (locals_objects s ml ul il) as (-> & -> & _).
      destruct (old_records s ml ul il ml Hml) as [_ ->].
      now rewrite Hmatched, Hunmatched.
Qed.

(** *** Loading, over the objects *)

Lemma set_deref (f : Heap.addr -> entry) (d : Dict.dict Heap.addr)
    (k : string) (a : Heap.addr) :
  map (fun item : string * Heap.addr => (fst item, f (snd item)))
      (Dict.set d k a)
  = Dict.set (map (fun item : string * Heap.addr => (fst item, f (snd item)))
                  d) k (f a).
Proof.
  induction d as [|[k' a'] d IH]; simpl; [reflexivity|].
  destruct (String.eqb k' k); simpl; [reflexivity|]. now rewrite IH.
Qed.

(** The loading loop files the reference where the loop on values files
    the record. *)
Lemma heap_build_lookup_run (data : list entry) :
  forall (rest before : list entry) (lookup : Dict.dict Heap.addr),
    data = before ++ rest ->
    (forall k a, In (k, a) lookup -> a < List.length data) ->
    match Heap.build_lookup
            (combine (seq (List.length before) (List.length rest)) rest)
            lookup,
          build_lookup rest
            (map (fun item : string * Heap.addr =>
                    (fst item, nth (snd item) data []))
                 lookup) with
    | inl x, inl y => x = y
    | inr refs, inr table =>
        table = map (fun item : string * Heap.addr =>
                       (fst item, nth (snd item) data []))
                    refs
        /\ forall k a, In (k, a) refs -> a < List.length data
    | _, _ => False
    end.
Proof.
  induction rest as [|e rest IH]; intros before lookup Hdata Hbound.
  - simpl. auto.
  - cbn [List.length seq combine Heap.build_lookup build_lookup].
    destruct (entry_key e) as [x|key]; [reflexivity|].
    specialize (IH (before ++ [e]) (Dict.set lookup key (List.length before))).
    pose proof (set_deref (fun a => nth a data []) lookup key
                  (List.length before)) as Hset.
    cbv beta in Hset. rewrite length_app, Nat.add_1_r, Hset in IH.
    assert (He : nth (List.length before) data [] = e).
    { rewrite Hdata. apply nth_middle. }
    rewrite He in IH. apply IH.
    + rewrite Hdata, <- app_assoc. reflexivity.
    + intros k a Hin. destruct (In_set _ _ _ _ _ Hin) as [Hold|Hnew].
      * eapply Hbound, Hold.
      * inversion Hnew; subst. rewrite length_app. simpl. lia.
Qed.

Lemma loaded_fields (data : list entry) (rest : list Heap.object)
    (a : Heap.addr) :
  a < List.length data ->
  nth_error (map Heap.Record data ++ rest) a
  = Some (Heap.Record (nth a data [])).
Proof.
  intros Ha. rewrite nth_error_app1 by now rewrite length_map.
  rewrite nth_error_map, (nth_error_nth' data [] Ha). reflexivity.
Qed.

(** Loading leaves a well-formed state, which the computations on
    values see as the globals that [load_module] makes; it raises what
    [load_module] raises. *)
Lemma heap_load_module_run (data : list entry) :
  match Heap.load_module data, load_module data with
  | inl x, inl y => x = y
  | inr s, inr g => Heap.well_formed s = true /\ Heap.view s = g
  | _, _ => False
  end.
Proof.
  unfold Heap.load_module, load_module.
  pose proof (heap_build_lookup_run data data [] [] eq_refl) as H.
  cbn [List.length map] in H.
  destruct (Heap.build_lookup _ []) as [x|refs];
    destruct (build_lookup data []) as [y|table];
    try (exact (H (fun k a (Hin : In (k, a) []) => match Hin with end)));
    try (destruct (H (fun k a (Hin : In (k, a) []) => match Hin with end))).
  destruct (H (fun k a (Hin : In (k, a) []) => match Hin with end))
    as [Htable Hbound].
  set (s := {| Heap.objects :=
                 map Heap.Record data
                 ++ [Heap.Records (seq 0 (List.length data)); Heap.Table refs];
               Heap.INGREDIENT_DB := List.length data;
               Heap.INGREDIENT_LOOKUP := S (List.length data) |}).
  assert (Hrec : forall a, a < List.length data ->
            Heap.is_record s a = true /\ Heap.fields_at s a = nth a data []).
  { intros a Ha. unfold Heap.is_record, Heap.fields_at, s.
    cbn [Heap.objects].
    rewrite (loaded_fields data _ a Ha). auto. }
  assert (Hdb : nth_error (Heap.objects s) (Heap.INGREDIENT_DB s)
                = Some (Heap.Records (seq 0 (List.length data)))).
  { unfold s. cbn [Heap.objects Heap.INGREDIENT_DB].
    rewrite nth_error_app2 by (rewrite length_map; lia).
    now rewrite length_map, Nat.sub_diag. }
  assert (Hlookup : nth_error (Heap.objects s) (Heap.INGREDIENT_LOOKUP s)
                    = Some (Heap.Table refs)).
  { unfold s. cbn [Heap.objects Heap.INGREDIENT_LOOKUP].
    rewrite nth_error_app2 by (rewrite length_map; lia).
    rewrite length_map.
    replace (S (List.length data) - List.length data) with 1 by lia.
    reflexivity. }
  split.
  - unfold Heap.well_formed. rewrite Hdb, Hlookup.
    apply andb_true_intro. split; apply forallb_forall.
    + intros a Ha. apply in_seq in Ha. apply Hrec. lia.
    + intros [k a] Hin. apply Hrec. eapply Hbound, Hin.
  - unfold Heap.view. rewrite Hdb, Hlookup. f_equal.
    + clear - Hrec.
      assert (Hnth : forall before rest,
                data = before ++ rest ->
                map (Heap.fields_at s)
                    (seq (List.length before) (List.length rest))
                = rest).
      { intros before rest. revert before.
        induction rest as [|e rest IH]; intros before Hd; [reflexivity|].
        cbn [List.length seq map]. f_equal.
        - destruct (Hrec (List.length before)) as [_ ->].
          + rewrite Hd, length_app. simpl. lia.
          + rewrite Hd. apply nth_middle.
        - specialize (IH (before ++ [e])).
          rewrite length_app, Nat.add_1_r in IH. apply IH.
          now rewrite <- app_assoc. }
      exact (Hnth [] data eq_refl).
    + rewrite Htable. unfold Heap.deref_items. apply map_ext_in.
      intros [k a] Hin. cbn [fst snd]. f_equal. apply Hrec.
      eapply Hbound, Hin.
Qed.

(** *** What a call leaves behind *)

(** C9. A call of [retrieve_knowledge] on a loaded state ends, with a
    value or an exception.  It leaves the two names bound as they were
    and every object that was there as it was, the table and the
    records among them: what it changes are the lists and the set it
    made itself, and the two lists it returns are new ones.  What the
    caller reads in them is what the computation on values gives.  A
    second call with the same names, on the state the first one left,
    ends with the same exception or returns lists that read the same,
    and it leaves the lists of the first call as they were. *)
Theorem retrieve_knowledge_leaves_heap (names : list string)
    (s : Heap.state) :
  Heap.well_formed s = true ->
  exists outcome s',
    Heap.retrieve_knowledge names s = Some (outcome, s')
    /\ Heap.INGREDIENT_DB s' = Heap.INGREDIENT_DB s
    /\ Heap.INGREDIENT_LOOKUP s' = Heap.INGREDIENT_LOOKUP s
    /\ (forall a o, nth_error (Heap.objects s) a = Some o ->
                    nth_error (Heap.objects s') a = Some o)
    /\ (forall matched_list unmatched_list,
          outcome = inr (matched_list, unmatched_list) ->
          nth_error (Heap.objects s) matched_list = None
          /\ nth_error (Heap.objects s) unmatched_list = None)
    /\ Heap.view s' = Heap.view s
    /\ Heap.returned s' outcome = fst (retrieve_knowledge names (Heap.view s))
    /\ exists outcome2 s'',
         Heap.retrieve_knowledge names s' = Some (outcome2, s'')
         /\ Heap.returned s'' outcome2 = Heap.returned s' outcome
         /\ Heap.returned s'' outcome = Heap.returned s' outcome
         /\ (forall a o, nth_error (Heap.objects s) a = Some o ->
                         nth_error (Heap.objects s'') a = Some o)
         /\ Heap.view s'' = Heap.view s.
Proof.
  intros Hwf.
  destruct (heap_retrieve_knowledge_run s names Hwf)
    as (outcome & ml & ul & il & Hrun & Hml & Hfresh & Hret).
  destruct (with_locals_well_formed s ml ul il Hwf) as [Hwf' Hview'].
  exists outcome, (Heap.with_locals s ml ul il).
  split; [exact Hrun|]. split; [reflexivity|]. split; [reflexivity|].
  split; [intros a o; apply old_object|]. split.
  { intros m u Hout. destruct (Hfresh m u Hout) as [-> ->].
    split; apply nth_error_None; lia. }
  split; [exact Hview'|]. split; [exact Hret|].
  destruct (heap_retrieve_knowledge_run (Heap.with_locals s ml ul il)
              names Hwf')
    as (outcome2 & ml2 & ul2 & il2 & Hrun2 & Hml2 & Hfresh2 & Hret2).
  destruct (with_locals_well_formed (Heap.with_locals s ml ul il)
              ml2 ul2 il2 Hwf') as [_ Hview2].
  exists outcome2, (Heap.with_locals (Heap.with_locals s ml ul il) ml2 ul2 il2).
  split; [exact Hrun2|]. split; [now rewrite Hret2, Hview', Hret|]. split.
  { destruct outcome as [x|[m u]]; [reflexivity|].
    destruct (Hfresh m u eq_refl) as [-> ->]. unfold Heap.returned.
    destruct (locals_objects s ml ul il) as (H0 & H1 & _).
    rewrite (old_object _ ml2 ul2 il2 _ _ H0), (old_object _ ml2 ul2 il2 _ _ H1).
    rewrite H0, H1.
    destruct (old_records s ml ul il ml Hml) as [Hml' _].
    destruct (old_records _ ml2 ul2 il2 ml Hml') as [_ ->]. reflexivity. }
  split; [intros a o Ha; now apply old_object, old_object|].
  now rewrite Hview2.
Qed.

Example sample_heap_load : Heap.load_module sample_data = inr sample_heap.
Proof. reflexivity. Qed.

Example sample_heap_view : Heap.view sample_heap = sample_globals.
Proof. reflexivity. Qed.

(** The call of [sample_retrieve], over the objects: the two lists are
    the objects 7 and 8, and [matched] holds the references that the
    table holds. *)
Example sample_heap_retrieve :
  exists s',
    Heap.retrieve_knowledge
      ["sugar"; "SALT"; "Water"; "Sugar "; "Citric Acid (E330)"; "suger"; "qq"]
      sample_heap
    = Some (inr (7, 8), s')
    /\ nth_error (Heap.objects s') 7 = Some (Heap.Records [0; 4; 2])
    /\ nth_error (Heap.objects s') 8 = Some (Heap.Names ["Water"; "qq"])
    /\ nth_error (Heap.objects s') 9
       = Some (Heap.Ids [PyInt 3; PyInt 5; PyInt 1]).
Proof. eexists. vm_compute. repeat split. Qed.

Lemma retrieve_knowledge_leaves_heap_witness :
  Heap.well_formed sample_heap = true
  /\ exists outcome s',
       Heap.retrieve_knowledge ["sugar"; "Water"] sample_heap
       = Some (outcome, s')
       /\ Heap.view s' = Heap.view sample_heap
       /\ exists outcome2 s'',
            Heap.retrieve_knowledge ["sugar"; "Water"] s'
            = Some (outcome2, s'')
            /\ Heap.returned s'' outcome2 = Heap.returned s' outcome.
Proof.
  assert (Hwf : Heap.well_formed sample_heap = true) by reflexivity.
  split; [exact Hwf|].
  destruct (retrieve_knowledge_leaves_heap ["sugar"; "Water"] sample_heap Hwf)
    as (outcome & s' & Hrun & _ & _ & _ & _ & Hview & _
        & outcome2 & s'' & Hrun2 & Hsame & _).
  exists outcome, s'. split; [exact Hrun|]. split; [exact Hview|].
  exists outcome2, s''. split; [exact Hrun2 | exact Hsame].
Defined.
